(** * createDeferredEffect: a deferred, dependency-aware effect scheduler

    Shallow embedding of [src/createDeferredEffect.ts].  The module-level
    variables of the source ([effectQueue], [runningEffects], [effectDeps],
    [currentEffect], [effectTaskIsScheduled]) are fields of an explicit
    [State]; the functions of the source ([get], [set], [createDeferredEffect],
    [runEffects]) are state transformers with the same names.

    The primitives imported from solid-js are not part of the repository.
    They are modelled from section 6 of the specification and kept in the
    same [State]: the value cells, the base effect subscriptions, the
    ownership scopes with their cleanup callbacks, and the host's microtask
    queue. *)

From Stdlib Require Import List ZArith Bool Lia PeanoNat.
Import ListNotations.

(** ** Data model *)

(** A signal is identified by the reference of its base writer [_set]; that
    reference is what [effectDeps] stores. *)
Definition Setter := nat.

(** An effect is identified by its function reference.  [placeholder] is the
    arrow function [() => {}] that [currentEffect] holds at module load. *)
Inductive EffectFunction : Type :=
| placeholder
| effect (id : nat).

Definition Owner := nat.

(** What an effect function does when it is called: read and write tracked
    signals, push to a user's list, return a value ([None] is [undefined])
    or throw.  The continuation of [ReadSignal] receives the value read. *)
Inductive Code : Type :=
| Return (v : option Z)
| Throw
| ReadSignal (s : Setter) (k : Z -> Code)
| WriteSignal (s : Setter) (v : Z) (k : Code)
| Push (v : Z) (k : Code).

(** Observable events, kept in a ghost trace. *)
Inductive Event : Type :=
| Called (fn : EffectFunction) (prev : option Z)
| Returned (fn : EffectFunction) (v : option Z)
| SignalRead (s : Setter).

(** One base effect subscription: what [createEffect] creates.  [c_initial]
    is the closure variable [initial] of [createDeferredEffect]; [c_sources]
    are the signals read during the previous run of the base effect. *)
Record Computation : Type := mkComputation {
  c_fn : EffectFunction;
  c_initial : bool;
  c_owner : option Owner;
  c_sources : list Setter
}.

Record State : Type := mkState {
  (* base reactive primitives (modelled from the specification) *)
  cells : list Z;
  computations : list Computation;
  owner : option Owner;
  cleanups : list (Owner * EffectFunction);
  microtasks : list (option Owner);
  (* module-level variables of createDeferredEffect.ts *)
  effectQueue : list EffectFunction;
  runningEffects : bool;
  effectDeps : list (EffectFunction * list Setter);
  currentEffect : EffectFunction;
  effectTaskIsScheduled : bool;
  (* the user's list and the ghost trace *)
  out : list Z;
  trace : list Event
}.

Definition initial_state : State :=
  mkState [] [] None [] [] [] false [] placeholder false [] [].

Inductive Outcome : Type :=
| Normal (st : State)
| Threw (st : State)
| OutOfFuel (st : State).

Definition state_of (r : Outcome) : State :=
  match r with Normal st | Threw st | OutOfFuel st => st end.

(** Field updates. *)
Definition set_cells v st :=
  mkState v (computations st) (owner st) (cleanups st) (microtasks st)
    (effectQueue st) (runningEffects st) (effectDeps st) (currentEffect st)
    (effectTaskIsScheduled st) (out st) (trace st).
Definition set_computations v st :=
  mkState (cells st) v (owner st) (cleanups st) (microtasks st)
    (effectQueue st) (runningEffects st) (effectDeps st) (currentEffect st)
    (effectTaskIsScheduled st) (out st) (trace st).
Definition set_owner v st :=
  mkState (cells st) (computations st) v (cleanups st) (microtasks st)
    (effectQueue st) (runningEffects st) (effectDeps st) (currentEffect st)
    (effectTaskIsScheduled st) (out st) (trace st).
Definition set_cleanups v st :=
  mkState (cells st) (computations st) (owner st) v (microtasks st)
    (effectQueue st) (runningEffects st) (effectDeps st) (currentEffect st)
    (effectTaskIsScheduled st) (out st) (trace st).
Definition set_microtasks v st :=
  mkState (cells st) (computations st) (owner st) (cleanups st) v
    (effectQueue st) (runningEffects st) (effectDeps st) (currentEffect st)
    (effectTaskIsScheduled st) (out st) (trace st).
Definition set_effectQueue v st :=
  mkState (cells st) (computations st) (owner st) (cleanups st) (microtasks st)
    v (runningEffects st) (effectDeps st) (currentEffect st)
    (effectTaskIsScheduled st) (out st) (trace st).
Definition set_runningEffects v st :=
  mkState (cells st) (computations st) (owner st) (cleanups st) (microtasks st)
    (effectQueue st) v (effectDeps st) (currentEffect st)
    (effectTaskIsScheduled st) (out st) (trace st).
Definition set_effectDeps v st :=
  mkState (cells st) (computations st) (owner st) (cleanups st) (microtasks st)
    (effectQueue st) (runningEffects st) v (currentEffect st)
    (effectTaskIsScheduled st) (out st) (trace st).
Definition set_currentEffect v st :=
  mkState (cells st) (computations st) (owner st) (cleanups st) (microtasks st)
    (effectQueue st) (runningEffects st) (effectDeps st) v
    (effectTaskIsScheduled st) (out st) (trace st).
Definition set_effectTaskIsScheduled v st :=
  mkState (cells st) (computations st) (owner st) (cleanups st) (microtasks st)
    (effectQueue st) (runningEffects st) (effectDeps st) (currentEffect st)
    v (out st) (trace st).
Definition set_out v st :=
  mkState (cells st) (computations st) (owner st) (cleanups st) (microtasks st)
    (effectQueue st) (runningEffects st) (effectDeps st) (currentEffect st)
    (effectTaskIsScheduled st) v (trace st).
Definition log (e : Event) st :=
  mkState (cells st) (computations st) (owner st) (cleanups st) (microtasks st)
    (effectQueue st) (runningEffects st) (effectDeps st) (currentEffect st)
    (effectTaskIsScheduled st) (out st) (trace st ++ [e]).

(** ** Insertion-ordered Set and Map of JavaScript *)

Definition fn_eq_dec (a b : EffectFunction) : {a = b} + {a <> b}.
Proof. decide equality. apply Nat.eq_dec. Defined.

Definition fn_eqb (a b : EffectFunction) : bool :=
  if fn_eq_dec a b then true else false.

Definition memb (s : Setter) (l : list Setter) : bool := existsb (Nat.eqb s) l.

(** [Set.prototype.add]: a value already present keeps its position. *)
Definition set_add (s : Setter) (l : list Setter) : list Setter :=
  if memb s l then l else l ++ [s].

Definition queue_has (fn : EffectFunction) (q : list EffectFunction) : bool :=
  existsb (fn_eqb fn) q.

Definition queue_add (fn : EffectFunction) (q : list EffectFunction) :=
  if queue_has fn q then q else q ++ [fn].

(** [Set.prototype.delete]. *)
Definition queue_delete (fn : EffectFunction) (q : list EffectFunction) :=
  filter (fun g => negb (fn_eqb fn g)) q.

(** [Map.prototype.get]. *)
Fixpoint deps_get (fn : EffectFunction) (m : list (EffectFunction * list Setter))
  : option (list Setter) :=
  match m with
  | [] => None
  | (g, d) :: m' => if fn_eqb fn g then Some d else deps_get fn m'
  end.

(** The three lines of [get] that record a read: fetch the set of [fn],
    create it when absent, add the setter. *)
Fixpoint deps_record (fn : EffectFunction) (s : Setter)
  (m : list (EffectFunction * list Setter)) : list (EffectFunction * list Setter) :=
  match m with
  | [] => [(fn, [s])]
  | (g, d) :: m' =>
      if fn_eqb fn g then (g, set_add s d) :: m' else (g, d) :: deps_record fn s m'
  end.

(** [effectDeps.get(fn)?.clear()]: the entry stays, its set is emptied. *)
Fixpoint deps_clear (fn : EffectFunction) (m : list (EffectFunction * list Setter))
  : list (EffectFunction * list Setter) :=
  match m with
  | [] => []
  | (g, d) :: m' =>
      if fn_eqb fn g then (g, []) :: m' else (g, d) :: deps_clear fn m'
  end.

(** [Map.prototype.delete]. *)
Definition deps_delete (fn : EffectFunction) (m : list (EffectFunction * list Setter)) :=
  filter (fun e => negb (fn_eqb fn (fst e))) m.

(** The recorded dependencies of [fn]; empty when it has no entry. *)
Definition deps_of (fn : EffectFunction) (st : State) : list Setter :=
  match deps_get fn (effectDeps st) with Some d => d | None => [] end.

(** ** Base reactive primitives

    The solid-js primitives [createSignal] ([_get], [_set]), [createEffect],
    [getOwner], [runWithOwner], [onCleanup] and the host's [queueMicrotask]
    are imported, not defined in the repository.  Section 6 of the
    specification gives their contract: a plain get/set cell; an effect that
    is invoked again whenever a signal read during its previous run changes;
    an ownership scope that cleanup callbacks attach to; a microtask that
    runs after the current synchronous code. *)

(** Modelled from the spec: the value slot of a base cell
    ([createBaseSignal], a plain get/set cell). *)
Definition read_cell (s : Setter) (st : State) : Z := nth s (cells st) 0%Z.

Fixpoint write_cell (s : Setter) (v : Z) (l : list Z) : list Z :=
  match l, s with
  | [], _ => []
  | _ :: l', O => v :: l'
  | x :: l', S s' => x :: write_cell s' v l'
  end.

Fixpoint update_computation (c : nat) (f : Computation -> Computation)
  (l : list Computation) : list Computation :=
  match l, c with
  | [], _ => []
  | x :: l', O => f x :: l'
  | x :: l', S c' => x :: update_computation c' f l'
  end.

Definition subscribe (s : Setter) (x : Computation) : Computation :=
  mkComputation (c_fn x) (c_initial x) (c_owner x) (set_add s (c_sources x)).

Definition unsubscribe (x : Computation) : Computation :=
  mkComputation (c_fn x) (c_initial x) (c_owner x) [].

Definition started (x : Computation) : Computation :=
  mkComputation (c_fn x) false (c_owner x) (c_sources x).

(** Modelled from the spec: the base reader [_get()], called while base
    effect [c] runs; [c] becomes an observer of the signal, as the base
    effect is invoked again when a signal read during its previous run
    changes. *)
Definition _get (c : nat) (s : Setter) (st : State) : Z * State :=
  (read_cell s st,
   set_computations (update_computation c (subscribe s) (computations st)) st).

(** Modelled from the spec: the base effects that observe signal [s],
    oldest first. *)
Fixpoint observers_from (i : nat) (s : Setter) (l : list Computation) : list nat :=
  match l with
  | [] => []
  | x :: l' =>
      if memb s (c_sources x) then i :: observers_from (S i) s l'
      else observers_from (S i) s l'
  end.

Definition observers (s : Setter) (st : State) : list nat :=
  observers_from 0 s (computations st).

(** Lines 116-120, [getOwner() && onCleanup(...)]: the only callback the
    source registers deletes [fn] from [effectDeps] and [effectQueue], so a
    registered callback is the pair of its scope and [fn].  The base
    [onCleanup] attaches it to the current scope. *)
Definition onCleanup (fn : EffectFunction) (st : State) : State :=
  match owner st with
  | Some o => set_cleanups (cleanups st ++ [(o, fn)]) st
  | None => st
  end.

(** ** The source: the body of the function passed to [createEffect] after
    its first run (lines 94-110) *)

Definition wrapper_subsequent (fn : EffectFunction) (st : State) : State :=
  let st1 := set_effectQueue (queue_add fn (effectQueue st)) st in
  if runningEffects st1 then st1
  else if effectTaskIsScheduled st1 then st1
  else
    let st2 := set_effectTaskIsScheduled true st1 in
    set_microtasks (microtasks st2 ++ [owner st2]) st2.

(** Modelled from the spec: the base primitive invokes the function of
    effect [c] again; its sources are reset and tracked anew, and the
    function runs within the ownership scope the effect was created in.  An
    effect becomes an observer only during its first run, which has already
    reset [initial]; the function then takes the path above, which reads no
    signal. *)
Definition rerun (c : nat) (st : State) : State :=
  match nth_error (computations st) c with
  | None => st
  | Some x =>
      if c_initial x then st
      else
        let st1 := set_computations
                     (update_computation c unsubscribe (computations st)) st in
        let saved := owner st1 in
        set_owner saved (wrapper_subsequent (c_fn x) (set_owner (c_owner x) st1))
  end.

(** Modelled from the spec: the observers are invoked one after the
    other. *)
Definition notify (cs : list nat) (st : State) : State :=
  fold_left (fun acc c => rerun c acc) cs st.

(** Modelled from the spec: the base writer [_set(v)].  A write of the
    value the cell already holds changes nothing and notifies nobody;
    otherwise the cell is updated and every observer is invoked again
    before the write returns. *)
Definition _set (s : Setter) (v : Z) (st : State) : State :=
  if Z.eqb (read_cell s st) v then st
  else
    let st1 := set_cells (write_cell s v (cells st)) st in
    notify (observers s st1) st1.

(** ** The source: [createSignal] (lines 27-59) *)

Definition createSignal (value : Z) (st : State) : Setter * State :=
  (length (cells st), set_cells (cells st ++ [value]) st).

(** [get]; [c] is the base effect that is running. *)
Definition get (c : nat) (s : Setter) (st : State) : Z * State :=
  let st0 := log (SignalRead s) st in
  if negb (runningEffects st0) then _get c s st0
  else
    let st1 := set_effectDeps
                 (deps_record (currentEffect st0) s (effectDeps st0)) st0 in
    _get c s st1.

(** [effectQueue.delete(fn); effectQueue.add(fn)]. *)
Definition move_to_end (fn : EffectFunction) (q : list EffectFunction) :=
  queue_add fn (queue_delete fn q).

(** The inner loop [for (const dep of deps)]. *)
Fixpoint scan_set (s : Setter) (fn : EffectFunction) (deps : list Setter)
  (q : list EffectFunction) : list EffectFunction :=
  match deps with
  | [] => q
  | dep :: deps' =>
      scan_set s fn deps' (if Nat.eqb dep s then move_to_end fn q else q)
  end.

(** The outer loop [for (const [fn, deps] of effectDeps)]. *)
Fixpoint scan (s : Setter) (m : list (EffectFunction * list Setter))
  (q : list EffectFunction) : list EffectFunction :=
  match m with
  | [] => q
  | (fn, deps) :: m' => scan s m' (scan_set s fn deps q)
  end.

Definition requeue_dependents (s : Setter) (st : State) : State :=
  set_effectQueue (scan s (effectDeps st) (effectQueue st)) st.

(** [set]. *)
Definition set (s : Setter) (v : Z) (st : State) : State :=
  if negb (runningEffects st) then _set s v st
  else _set s v (requeue_dependents s st).

(** ** The source: [createDeferredEffect] and [runEffects] *)

Section Scheduler.

(** What each function reference does when called with [prev]. *)
Variable body : EffectFunction -> option Z -> Code.

(** Calling [fn(prev)] as base effect [c]. *)
Fixpoint exec (fn : EffectFunction) (c : nat) (p : Code) (st : State) : Outcome :=
  match p with
  | Return v => Normal (log (Returned fn v) st)
  | Throw => Threw st
  | ReadSignal s k => let (v, st1) := get c s st in exec fn c (k v) st1
  | WriteSignal s v k => exec fn c k (set s v st)
  | Push v k => exec fn c k (set_out (out st ++ [v]) st)
  end.

(** The first run of the function passed to [createEffect] (lines 84-92). *)
Definition wrapper_initial (fn : EffectFunction) (c : nat) (prev : option Z)
  (st : State) : Outcome :=
  let st1 := set_computations (update_computation c started (computations st)) st in
  let st2 := set_currentEffect fn st1 in
  let st3 := set_effectDeps (deps_clear fn (effectDeps st2)) st2 in
  exec fn c (body fn prev) (log (Called fn prev) st3).

(** [createDeferredEffect(fn, value)].  The base [createEffect], as the
    specification describes it, creates base effect number [c] in the
    current ownership scope and invokes its function synchronously; an
    exception leaves through the caller, so the cleanup registration that
    follows is not reached. *)
Definition createDeferredEffect (fn : EffectFunction) (value : option Z)
  (st : State) : Outcome :=
  let c := length (computations st) in
  let st1 := set_computations
               (computations st ++ [mkComputation fn true (owner st) []]) st in
  match wrapper_initial fn c value st1 with
  | Normal st2 => Normal (onCleanup fn st2)
  | r => r
  end.

(** The loop of [runEffects].  A JavaScript Set iterator visits entries in
    insertion order and sees entries added during the iteration; as every
    visited entry is deleted first, the entry visited next is always the
    first one of the current queue. *)
Fixpoint drain (fuel : nat) (st : State) : Outcome :=
  match effectQueue st with
  | [] => Normal st
  | fn :: _ =>
      match fuel with
      | O => OutOfFuel st
      | S fuel' =>
          let st1 := set_effectQueue (queue_delete fn (effectQueue st)) st in
          match createDeferredEffect fn None st1 with
          | Normal st2 => drain fuel' st2
          | r => r
          end
      end
  end.

Definition runEffects (fuel : nat) (st : State) : Outcome :=
  match drain fuel (set_runningEffects true st) with
  | Normal st1 =>
      Normal (set_effectTaskIsScheduled false (set_runningEffects false st1))
  | r => r
  end.

(** Modelled from the spec: [runWithOwner(o, f)] runs [f] within scope
    [o]; the scope is restored when [f] returns or throws. *)
Definition runWithOwner (o : Owner) (f : State -> Outcome) (st : State) : Outcome :=
  let saved := owner st in
  match f (set_owner (Some o) st) with
  | Normal st1 => Normal (set_owner saved st1)
  | Threw st1 => Threw (set_owner saved st1)
  | OutOfFuel st1 => OutOfFuel (set_owner saved st1)
  end.

(** Modelled from the spec: the host runs the oldest pending microtask.
    The task is the arrow function queued at lines 107-110, with the scope
    it captured. *)
Definition microtask (fuel : nat) (st : State) : Outcome :=
  match microtasks st with
  | [] => Normal st
  | captured :: rest =>
      let st1 := set_microtasks rest st in
      match captured with
      | Some o => runWithOwner o (runEffects fuel) st1
      | None => runEffects fuel st1
      end
  end.

(** The callback of lines 117-120. *)
Definition run_cleanup (fn : EffectFunction) (st : State) : State :=
  set_effectQueue (queue_delete fn (effectQueue st))
    (set_effectDeps (deps_delete fn (effectDeps st)) st).

Definition owned_by (o : Owner) (x : Computation) : bool :=
  match c_owner x with Some o' => Nat.eqb o o' | None => false end.

Definition attached_to (o : Owner) (e : Owner * EffectFunction) : bool :=
  Nat.eqb o (fst e).

Definition run_cleanups (l : list (Owner * EffectFunction)) (st : State) : State :=
  fold_left (fun acc e => run_cleanup (snd e) acc) l st.

(** Modelled from the spec: disposal of ownership scope [o]; its cleanup
    callbacks run and the base effects created in it stop observing. *)
Definition dispose (o : Owner) (st : State) : State :=
  let st1 := run_cleanups (filter (attached_to o) (cleanups st)) st in
  let st2 := set_cleanups
               (filter (fun e => negb (attached_to o e)) (cleanups st1)) st1 in
  set_computations
    (map (fun x => if owned_by o x then unsubscribe x else x) (computations st2)) st2.

End Scheduler.

(** ** Predicates used in the statements *)

(** [g] has an entry in [m] whose set contains setter [s]. *)
Definition is_dependent (s : Setter) (m : list (EffectFunction * list Setter))
  (g : EffectFunction) : bool :=
  existsb (fun e => fn_eqb g (fst e) && memb s (snd e)) m.

(** The effects that depend on [s], in the order of the registry. *)
Definition dependents (s : Setter) (m : list (EffectFunction * list Setter))
  : list EffectFunction :=
  map fst (filter (fun e => memb s (snd e)) m).

Definition is_call_of (fn : EffectFunction) (e : Event) : bool :=
  match e with Called g _ => fn_eqb fn g | _ => false end.

(** How many times [fn] has been called so far. *)
Definition calls (fn : EffectFunction) (st : State) : nat :=
  length (filter (is_call_of fn) (trace st)).

(** How many base effects have been created for [fn]. *)
Definition subscriptions (fn : EffectFunction) (st : State) : nat :=
  length (filter (fn_eqb fn) (map c_fn (computations st))).


(** The part of the state that no tracked read, tracked write or base
    notification touches: the flags of a running flush, the ownership
    scope, the cleanup callbacks, the function of every base effect; and the queue
    only gains or reorders members. *)
Definition same_control (st st' : State) : Prop :=
  runningEffects st' = runningEffects st /\
  owner st' = owner st /\
  cleanups st' = cleanups st /\
  currentEffect st' = currentEffect st /\
  (runningEffects st = true ->
   effectTaskIsScheduled st' = effectTaskIsScheduled st /\
   microtasks st' = microtasks st) /\
  map c_fn (computations st') = map c_fn (computations st) /\
  incl (effectQueue st) (effectQueue st').

(** What a base write leaves alone on top of that: the trace, the user's
    list and the registry. *)
Definition same_log (st st' : State) : Prop :=
  trace st' = trace st /\ out st' = out st /\ effectDeps st' = effectDeps st.

(** A base effect after a notification: same function, same scope, and
    no source it did not have. *)
Definition shrinks (x x' : Computation) : Prop :=
  c_fn x' = c_fn x /\ c_owner x' = c_owner x /\
  incl (c_sources x') (c_sources x).

(** Some base effect of [g] observes signal [s]. *)
Definition observed_by (s : Setter) (g : EffectFunction) (st : State) : Prop :=
  exists x, In x (computations st) /\ c_fn x = g /\ In s (c_sources x).

(** The signals read in a stretch of the trace. *)
Definition read_in (s : Setter) (evs : list Event) : Prop := In (SignalRead s) evs.

(** What the code of an effect, run as base effect [c], can do to the trace,
    the registry and the base effects: [evs] are the events it adds; the
    registry gains exactly the signals read, for the current effect and
    only during a flush; base effect [c] gains at most the signals read and
    the others gain nothing. *)
Definition tracked (c : nat) (st : State) (evs : list Event) (st' : State) : Prop :=
  trace st' = trace st ++ evs /\
  runningEffects st' = runningEffects st /\
  currentEffect st' = currentEffect st /\
  (forall g s, In s (deps_of g st') <->
     In s (deps_of g st) \/
     (runningEffects st = true /\ g = currentEffect st /\ read_in s evs)) /\
  (runningEffects st = false -> effectDeps st' = effectDeps st) /\
  (NoDup (map fst (effectDeps st)) -> NoDup (map fst (effectDeps st'))) /\
  (forall g, In g (map fst (effectDeps st')) ->
     In g (map fst (effectDeps st)) \/
     (runningEffects st = true /\ g = currentEffect st)) /\
  (forall i x', nth_error (computations st') i = Some x' ->
     exists x, nth_error (computations st) i = Some x /\
       c_fn x' = c_fn x /\ c_owner x' = c_owner x /\
       forall s, In s (c_sources x') ->
         In s (c_sources x) \/ (i = c /\ read_in s evs)).

(** The state in which [createDeferredEffect] calls [fn(value)]: the base
    effect exists and has started, [fn] is the current effect and its
    dependency set is empty. *)
Definition about_to_call (fn : EffectFunction) (value : option Z) (st : State)
  : State :=
  log (Called fn value)
    (set_effectDeps (deps_clear fn (effectDeps st))
       (set_currentEffect fn
          (set_computations
             (computations st ++ [mkComputation fn false (owner st) []]) st))).

(** The state of the flush loop once it has deleted the entry it visits. *)
Definition dequeued (fn : EffectFunction) (st : State) : State :=
  set_effectQueue (queue_delete fn (effectQueue st)) st.

(** The value [fn] returned last according to a trace ([None] is
    [undefined], also when [fn] has not returned yet). *)
Definition last_returned (fn : EffectFunction) (evs : list Event) : option Z :=
  fold_left (fun acc e =>
               match e with
               | Returned g v => if fn_eqb fn g then v else acc
               | _ => acc
               end) evs None.

(** The events added between two states. *)
Definition events_since (st st' : State) : list Event :=
  skipn (length (trace st)) (trace st').

(** Reading of C3 as it is worded: the microtask flush that replays [fn]
    keeps every recorded dependency of [fn] and calls [fn] with the value
    it returned last. *)
Definition replay_keeps_dependencies_and_value
  (body : EffectFunction -> option Z -> Code) (fn : EffectFunction)
  (fuel : nat) (st : State) : Prop :=
  forall st', microtask body fuel st = Normal st' ->
    incl (deps_of fn st) (deps_of fn st') /\
    In (Called fn (last_returned fn (trace st))) (events_since st st').

(** Reading of C4 as it is worded: the signals read by the first run are
    in the registry when registration returns. *)
Definition first_run_records_reads
  (body : EffectFunction -> option Z -> Code) (fn : EffectFunction)
  (value : option Z) (st : State) : Prop :=
  forall st' s, createDeferredEffect body fn value st = Normal st' ->
    read_in s (events_since st st') -> In s (deps_of fn st').

(** While code [p] runs as effect [fn] (base effect [c]) from state [st],
    it writes a signal whose setter is, at the moment of the write, in the
    recorded dependency set of [fn]. *)
Fixpoint writes_own_dependency (fn : EffectFunction) (c : nat) (p : Code)
  (st : State) : Prop :=
  match p with
  | Return _ => False
  | Throw => False
  | ReadSignal s k =>
      writes_own_dependency fn c (k (fst (get c s st))) (snd (get c s st))
  | WriteSignal s v k =>
      In s (deps_of fn st) \/ writes_own_dependency fn c k (set s v st)
  | Push v k => writes_own_dependency fn c k (set_out (out st ++ [v]) st)
  end.

(** Code without a reachable [throw]. *)
Fixpoint never_throws (p : Code) : Prop :=
  match p with
  | Return _ => True
  | Throw => False
  | ReadSignal _ k => forall v, never_throws (k v)
  | WriteSignal _ _ k => never_throws k
  | Push _ k => never_throws k
  end.



(** At most one flush microtask is pending, and the flag says so. *)
Definition single_flight (st : State) : Prop :=
  microtasks st = [] \/
  ((exists o, microtasks st = [o]) /\ effectTaskIsScheduled st = true).

(** The states a program can reach from module load: it creates signals,
    registers effects with or without an ownership scope, writes signals,
    disposes scopes, and the host runs microtasks.  An exception or an
    endless flush leaves the state it was raised or cut off in. *)
Inductive reachable (body : EffectFunction -> option Z -> Code) : State -> Prop :=
| reach_load : reachable body initial_state
| reach_createSignal st v :
    reachable body st -> reachable body (snd (createSignal v st))
| reach_register st fn value :
    reachable body st ->
    reachable body (state_of (createDeferredEffect body fn value st))
| reach_register_owned st o fn value :
    reachable body st ->
    reachable body
      (state_of (runWithOwner o (createDeferredEffect body fn value) st))
| reach_set st s v :
    reachable body st -> reachable body (set s v st)
| reach_microtask st fuel :
    reachable body st -> reachable body (state_of (microtask body fuel st))
| reach_dispose st o :
    reachable body st -> reachable body (dispose o st).

(** ** Concrete effects and states of the examples *)

Module Scenario.

Definition f : EffectFunction := effect 1.
Definition g : EffectFunction := effect 2.
Definition h : EffectFunction := effect 3.

(** [S = trackedSignal(1)] and the effect [() => { out.push(S.read()) }]. *)
Definition with_S : State :=
  Eval vm_compute in snd (createSignal 1%Z initial_state).
Definition sig_S : Setter :=
  Eval vm_compute in fst (createSignal 1%Z initial_state).

Definition push_S (_ : EffectFunction) (_ : option Z) : Code :=
  ReadSignal sig_S (fun v => Push v (Return None)).

End Scenario.

Module ScenarioRequeue.
Import Scenario.

(** A flush in progress: [f] and [h] have read signal 0, [g] has read
    signal 1; [h] and [g] are pending, [f] has been dequeued and runs. *)
Definition draining : State :=
  mkState [0%Z; 0%Z] [] None [] [] [h; g] true
    [(f, [0]); (g, [1]); (h, [1; 0])] f true [] [].

End ScenarioRequeue.

Module ScenarioThrow.
Import Scenario.

(** [f] throws when it is replayed; [g] is queued behind it. *)
Definition failing (fn : EffectFunction) (_ : option Z) : Code :=
  if fn_eqb fn f then Throw else Return None.

Definition pending : State :=
  mkState [] [] None [] [] [f; g] false [] placeholder true [] [].

End ScenarioThrow.

Module ScenarioBranch.
Import Scenario.

(** [f] reads signal [A] and, only while [A] is 0, signal [X]; it returns 7. *)
Definition sig_A : Setter := 0.
Definition sig_X : Setter := 1.

Definition two_signals : State :=
  Eval vm_compute in
  snd (createSignal 0%Z (snd (createSignal 0%Z initial_state))).

Definition branching (_ : EffectFunction) (_ : option Z) : Code :=
  ReadSignal sig_A (fun a =>
    if Z.eqb a 0 then ReadSignal sig_X (fun _ => Return (Some 7%Z))
    else Return (Some 7%Z)).

Definition registered : State :=
  Eval vm_compute in
  state_of (createDeferredEffect branching f None two_signals).

(** [X] is written, the microtask replays [f]: it has read [A] and [X]. *)
Definition after_first_flush : State :=
  Eval vm_compute in
  state_of (microtask branching 1 (set sig_X 1%Z registered)).

(** [A] is written: [f] is queued again and a flush is scheduled. *)
Definition before_second_flush : State := set sig_A 1%Z after_first_flush.

Definition after_second_flush : State :=
  Eval vm_compute in
  state_of (microtask branching 1 before_second_flush).

(** The second flush at the point where the loop has dequeued [f], and
    right after the replay of [f]. *)
Definition second_flush_dequeued : State :=
  Eval vm_compute in
  set_runningEffects true (dequeued f before_second_flush).

Definition second_flush_replayed : State :=
  Eval vm_compute in
  state_of (createDeferredEffect branching f None second_flush_dequeued).

End ScenarioBranch.

Module ScenarioLoop.
Import Scenario.

(** [f] increments the signal it reads: [() => S.write(S.read() + 1)]. *)
Definition bump (_ : EffectFunction) (_ : option Z) : Code :=
  ReadSignal 0 (fun v => WriteSignal 0 (v + 1)%Z (Return None)).

Definition pending : State :=
  mkState [0%Z] [] None [] [] [f] false [] placeholder true [] [].

End ScenarioLoop.

Module ScenarioCleanup.
Import Scenario.

(** [f] is registered inside ownership scope 7, its signal is written, the
    scope is disposed before the microtask runs. *)
Definition registered : State :=
  Eval vm_compute in
  set_owner None
    (state_of (createDeferredEffect push_S f None (set_owner (Some 7) with_S))).

Definition written : State := Eval vm_compute in set sig_S 2%Z registered.

Definition disposed : State := Eval vm_compute in dispose 7 written.

End ScenarioCleanup.

Module ScenarioTwice.
Import Scenario.

Definition sig_X : Setter := 0.
Definition sig_Y : Setter := 1.
Definition sig_Z : Setter := 2.

(** [f] reads [X] when it is called with 0 and [Y] otherwise; every other
    effect reads [Z]. *)
Definition reads_by_value (fn : EffectFunction) (prev : option Z) : Code :=
  if fn_eqb fn f then
    match prev with
    | Some 0%Z => ReadSignal sig_X (fun _ => Return None)
    | _ => ReadSignal sig_Y (fun _ => Return None)
    end
  else ReadSignal sig_Z (fun _ => Return None).

Definition three_signals : State :=
  Eval vm_compute in
  snd (createSignal 0%Z (snd (createSignal 0%Z (snd (createSignal 0%Z initial_state))))).

(** [createDeferredEffect(f, 0); createDeferredEffect(f, 1);
    createDeferredEffect(g)]. *)
Definition registered : State :=
  Eval vm_compute in
  state_of (createDeferredEffect reads_by_value g None
    (state_of (createDeferredEffect reads_by_value f (Some 1%Z)
      (state_of (createDeferredEffect reads_by_value f (Some 0%Z) three_signals))))).

(** [X] then [Z] are written: [f] and [g] are pending, in this order. *)
Definition two_pending : State :=
  Eval vm_compute in set sig_Z 5%Z (set sig_X 5%Z registered).

End ScenarioTwice.

(** ** Further predicates and examples *)

(** Code that reads signals and pushes, and neither writes nor throws. *)
Fixpoint only_reads (p : Code) : Prop :=
  match p with
  | Return _ => True
  | Throw => False
  | ReadSignal _ k => forall v, only_reads (k v)
  | WriteSignal _ _ _ => False
  | Push _ k => only_reads k
  end.

(** The functions called according to a trace, in order. *)
Fixpoint called (evs : list Event) : list EffectFunction :=
  match evs with
  | [] => []
  | Called fn _ :: evs' => fn :: called evs'
  | _ :: evs' => called evs'
  end.

(** The collections are what JavaScript makes them: a Set and a Map hold
    no duplicate; every base effect has had its first run; the microtask
    queue agrees with the two flags. *)
Definition sound (st : State) : Prop :=
  NoDup (effectQueue st) /\
  NoDup (map fst (effectDeps st)) /\
  Forall (fun e => NoDup (snd e)) (effectDeps st) /\
  (forall x, In x (computations st) -> c_initial x = false) /\
  (runningEffects st = true -> microtasks st = []) /\
  (runningEffects st = false -> effectTaskIsScheduled st = true ->
   exists o, microtasks st = [o]) /\
  (runningEffects st = false -> effectTaskIsScheduled st = false ->
   microtasks st = []).

(** The states a program can reach from state [st0], by the same actions
    as [reachable]. *)
Inductive later (body : EffectFunction -> option Z -> Code) (st0 : State)
  : State -> Prop :=
| later_now : later body st0 st0
| later_createSignal st v :
    later body st0 st -> later body st0 (snd (createSignal v st))
| later_register st fn value :
    later body st0 st ->
    later body st0 (state_of (createDeferredEffect body fn value st))
| later_register_owned st o fn value :
    later body st0 st ->
    later body st0
      (state_of (runWithOwner o (createDeferredEffect body fn value) st))
| later_set st s v :
    later body st0 st -> later body st0 (set s v st)
| later_microtask st fuel :
    later body st0 st -> later body st0 (state_of (microtask body fuel st))
| later_dispose st o :
    later body st0 st -> later body st0 (dispose o st).

Module ScenarioMore.
Import Scenario.

(** The scenario of [Scenario.push_S] after registration and two writes,
    with its flush scheduled. *)
Definition scheduled : State :=
  Eval vm_compute in
  set sig_S 3%Z (set sig_S 2%Z
    (state_of (createDeferredEffect push_S f None with_S))).

(** [f] and [g] are pending and a flush within scope 7 is scheduled. *)
Definition two_readers : State :=
  mkState [4%Z] [] None [] [Some 7] [f; g] false [] placeholder true [] [].

(** [f] reads signal 0 when it is registered with a value and throws when
    it is replayed; it is registered with 1 and the signal is written. *)
Definition throws_on_replay (_ : EffectFunction) (prev : option Z) : Code :=
  match prev with
  | Some _ => ReadSignal 0 (fun _ => Return None)
  | None => Throw
  end.

Definition armed : State :=
  Eval vm_compute in
  set 0 5%Z
    (state_of (createDeferredEffect throws_on_replay f (Some 1%Z)
                 (snd (createSignal 0%Z initial_state)))).

Definition thrown : State :=
  Eval vm_compute in state_of (microtask throws_on_replay 1 armed).

End ScenarioMore.

(** ** Readings of claims as they are worded *)

(** On every replay during a flush [fn] writes a signal of its own
    recorded set. *)
Definition self_requeueing (body : EffectFunction -> option Z -> Code)
  (fn : EffectFunction) : Prop :=
  forall st, runningEffects st = true ->
    writes_own_dependency fn (length (computations st)) (body fn None)
      (about_to_call fn None st).

(** Reading of C5 as it is worded: a pending effect that requeues itself
    is visited again by the flush, that is, replayed at least twice. *)
Definition self_requeueing_effect_is_visited_again
  (body : EffectFunction -> option Z -> Code) (fn : EffectFunction)
  (st : State) : Prop :=
  self_requeueing body fn ->
  In fn (effectQueue st) ->
  exists fuel,
    calls fn st + 2 <= calls fn (state_of (runEffects body fuel st)).

(** Reading of C7 as it is worded: after a run of [fn] that did not read
    [x], [x] is not in the set of [fn] and a write to [x] does not queue
    [fn]. *)
Definition unread_signal_never_requeues
  (body : EffectFunction -> option Z -> Code) (fn : EffectFunction)
  (value : option Z) (x : Setter) (v : Z) (st : State) : Prop :=
  forall st1, createDeferredEffect body fn value st = Normal st1 ->
    ~ read_in x (events_since st st1) ->
    ~ In x (deps_of fn st1) /\
    (In fn (effectQueue (set x v st1)) -> In fn (effectQueue st1)).


Module ScenarioStarve.
Import Scenario.

(** [g] then [f] are registered; both increment signal 0, so each first
    run queues its own effect: [g; f] is pending. *)
Definition two_bumps : State :=
  Eval vm_compute in
  state_of (createDeferredEffect ScenarioLoop.bump f None
    (state_of (createDeferredEffect ScenarioLoop.bump g None
       (snd (createSignal 0%Z initial_state))))).

(** The flush after two iterations: [g] and [f] have been replayed once. *)
Definition starving : State :=
  Eval vm_compute in
  state_of (drain ScenarioLoop.bump 2 (set_runningEffects true two_bumps)).

(** The shape every later iteration finds and leaves: [g] is first, and
    the registry lists [g] before [f]. *)
Definition starves (st : State) : Prop :=
  runningEffects st = true /\
  effectQueue st = [g; f] /\
  effectDeps st = [(g, [0]); (f, [0])] /\
  (forall x, In x (computations st) -> In (c_fn x) [g; f]).

End ScenarioStarve.

Module ScenarioStale.
Import Scenario.

(** [ScenarioTwice] after its first registration, [createDeferredEffect(f, 0)]. *)
Definition once_registered : State :=
  Eval vm_compute in
  state_of (createDeferredEffect ScenarioTwice.reads_by_value f (Some 0%Z)
              ScenarioTwice.three_signals).

Definition twice_registered : State :=
  Eval vm_compute in
  state_of (createDeferredEffect ScenarioTwice.reads_by_value f (Some 1%Z)
              once_registered).

End ScenarioStale.

Module ScenarioAcross.
Import Scenario.

Definition sig_A : Setter := 0.
Definition sig_B : Setter := 1.

(** [f] reads [A]; every other effect reads [B] and writes [B + 10] to [A]. *)
Definition feeds (fn : EffectFunction) (_ : option Z) : Code :=
  if fn_eqb fn f then ReadSignal sig_A (fun _ => Return None)
  else ReadSignal sig_B (fun b => WriteSignal sig_A (b + 10)%Z (Return None)).

(** [g] is registered outside any scope and [f] inside scope 7.  [B] is
    written and the flush runs: it was scheduled by [g], outside any scope,
    and replays [g] and then [f].  [B] is written again: a flush is
    pending and the callback of [f] is still attached to scope 7. *)
Definition flush_pending : State :=
  Eval vm_compute in
  set sig_B 2%Z
    (state_of (microtask feeds 5
       (set sig_B 1%Z
          (state_of (runWithOwner 7 (createDeferredEffect feeds f None)
             (state_of (createDeferredEffect feeds g None
                (snd (createSignal 0%Z
                   (snd (createSignal 0%Z initial_state))))))))))).

End ScenarioAcross.

Module ScenarioEcho.
Import Scenario.

(** [() => S.write(S.read())]: the effect writes back the value it read. *)
Definition write_back (s : Setter) (_ : EffectFunction) (_ : option Z) : Code :=
  ReadSignal s (fun v => WriteSignal s v (Return None)).

(** The signal holds 4, [f] is registered and the signal is set to 5: [f]
    is pending and the flush is scheduled. *)
Definition pending : State :=
  Eval vm_compute in
  set 0 5%Z
    (state_of (createDeferredEffect (write_back 0) f None
       (snd (createSignal 4%Z initial_state)))).

End ScenarioEcho.

(** * Properties *)

(** ** Insertion-ordered collections *)

Lemma fn_eqb_eq a b : fn_eqb a b = true <-> a = b.
Proof. unfold fn_eqb. destruct (fn_eq_dec a b); split; congruence. Qed.

Lemma fn_eqb_neq a b : fn_eqb a b = false <-> a <> b.
Proof. unfold fn_eqb. destruct (fn_eq_dec a b); split; congruence. Qed.

Lemma fn_eqb_refl a : fn_eqb a a = true.
Proof. apply fn_eqb_eq. reflexivity. Qed.

Lemma fn_eqb_sym a b : fn_eqb a b = fn_eqb b a.
Proof.
  destruct (fn_eqb a b) eqn:E.
  - apply fn_eqb_eq in E. subst. symmetry. apply fn_eqb_refl.
  - apply fn_eqb_neq in E. symmetry. apply fn_eqb_neq. congruence.
Qed.

Lemma memb_In s l : memb s l = true <-> In s l.
Proof.
  unfold memb. rewrite existsb_exists. split.
  - intros (x & Hx & E). apply Nat.eqb_eq in E. now subst.
  - intros H. exists s. split; [assumption | apply Nat.eqb_refl].
Qed.

Lemma queue_has_In fn q : queue_has fn q = true <-> In fn q.
Proof.
  unfold queue_has. rewrite existsb_exists. split.
  - intros (x & Hx & E). apply fn_eqb_eq in E. now subst.
  - intros H. exists fn. split; [assumption | apply fn_eqb_refl].
Qed.

Lemma In_set_add x s l : In x (set_add s l) <-> x = s \/ In x l.
Proof.
  unfold set_add. destruct (memb s l) eqn:E.
  - apply memb_In in E. split; [auto | intros [->|]; auto].
  - rewrite in_app_iff. simpl. intuition.
Qed.

Lemma In_queue_add x fn q : In x (queue_add fn q) <-> x = fn \/ In x q.
Proof.
  unfold queue_add. destruct (queue_has fn q) eqn:E.
  - apply queue_has_In in E. split; [auto | intros [->|]; auto].
  - rewrite in_app_iff. simpl. intuition.
Qed.

Lemma In_queue_delete x fn q : In x (queue_delete fn q) <-> x <> fn /\ In x q.
Proof.
  unfold queue_delete. rewrite filter_In, negb_true_iff, fn_eqb_neq.
  intuition.
Qed.

Lemma queue_has_delete fn q : queue_has fn (queue_delete fn q) = false.
Proof.
  destruct (queue_has fn (queue_delete fn q)) eqn:E; [|reflexivity].
  apply queue_has_In, In_queue_delete in E. now destruct E.
Qed.

Lemma move_to_end_eq fn q : move_to_end fn q = queue_delete fn q ++ [fn].
Proof. unfold move_to_end, queue_add. now rewrite queue_has_delete. Qed.

Lemma In_move_to_end x fn q : In x (move_to_end fn q) <-> x = fn \/ In x q.
Proof.
  rewrite move_to_end_eq, in_app_iff, In_queue_delete. simpl.
  destruct (fn_eq_dec x fn); intuition.
Qed.

Lemma queue_delete_app fn q1 q2 :
  queue_delete fn (q1 ++ q2) = queue_delete fn q1 ++ queue_delete fn q2.
Proof. apply filter_app. Qed.

Lemma move_to_end_idem fn q : move_to_end fn (move_to_end fn q) = move_to_end fn q.
Proof.
  rewrite !move_to_end_eq, queue_delete_app. simpl.
  rewrite fn_eqb_refl. simpl. rewrite app_nil_r.
  f_equal. unfold queue_delete. induction q as [|a q IH]; simpl; [reflexivity|].
  destruct (fn_eqb fn a) eqn:E; simpl; [assumption|].
  rewrite E. simpl. now f_equal.
Qed.

(** The inner loop moves [fn] to the end exactly when [s] is in its set. *)
Lemma scan_set_eq s fn deps q :
  scan_set s fn deps q = if memb s deps then move_to_end fn q else q.
Proof.
  revert q. induction deps as [|d deps IH]; intros q; simpl; [reflexivity|].
  rewrite IH. rewrite (Nat.eqb_sym s d).
  destruct (Nat.eqb d s); simpl.
  - destruct (memb s deps); [apply move_to_end_idem | reflexivity].
  - reflexivity.
Qed.

Lemma In_scan x s m q : In x (scan s m q) <-> In x q \/ is_dependent s m x = true.
Proof.
  revert q. induction m as [|[fn deps] m IH]; intros q; simpl.
  - intuition discriminate.
  - rewrite IH, scan_set_eq. destruct (memb s deps) eqn:E.
    + rewrite In_move_to_end, andb_true_r, orb_true_iff, fn_eqb_eq. intuition.
    + rewrite andb_false_r. simpl. reflexivity.
Qed.


Lemma is_dependent_deps_get s m fn d :
  deps_get fn m = Some d -> In s d -> is_dependent s m fn = true.
Proof.
  induction m as [|[g d'] m IH]; simpl; [discriminate|].
  destruct (fn_eqb fn g) eqn:E; intros H Hin.
  - injection H as ->. apply memb_In in Hin. now rewrite Hin.
  - rewrite (IH H Hin). apply orb_true_r.
Qed.

Lemma is_dependent_keys s m fn : is_dependent s m fn = true -> In fn (map fst m).
Proof.
  unfold is_dependent. rewrite existsb_exists. intros ([g d] & Hin & E).
  apply andb_true_iff in E. destruct E as [E _]. apply fn_eqb_eq in E.
  simpl in E. subst. apply in_map_iff. now exists (g, d).
Qed.

Lemma is_dependent_unique s m fn :
  NoDup (map fst m) -> is_dependent s m fn = true ->
  exists d, deps_get fn m = Some d /\ In s d.
Proof.
  induction m as [|[g d'] m IH]; simpl; [discriminate|].
  intros Hnd H. inversion Hnd as [|? ? Hnot Hnd']; subst.
  destruct (fn_eqb fn g) eqn:E; simpl in H.
  - apply orb_true_iff in H. destruct H as [H|H].
    + exists d'. split; [reflexivity | now apply memb_In].
    + apply fn_eqb_eq in E. subst. apply is_dependent_keys in H. contradiction.
  - now apply IH.
Qed.

Lemma filter_filter {A} (p r : A -> bool) l :
  filter p (filter r l) = filter (fun x => r x && p x) l.
Proof.
  induction l as [|a l IH]; simpl; [reflexivity|].
  destruct (r a); simpl; [destruct (p a); now rewrite IH | assumption].
Qed.

(** The whole scan: the effects that do not depend on [s] keep their order
    at the front, the dependents follow in the order of the registry. *)
Lemma scan_eq s m q :
  NoDup (map fst m) ->
  scan s m q = filter (fun g => negb (is_dependent s m g)) q ++ dependents s m.
Proof.
  revert q. induction m as [|[fn deps] m IH]; intros q Hnd.
  - simpl. unfold dependents. simpl. rewrite app_nil_r.
    induction q as [|a q IHq]; simpl; [reflexivity | now f_equal].
  - inversion Hnd as [|? ? Hnot Hnd']; subst. simpl scan.
    rewrite scan_set_eq, (IH _ Hnd'). unfold dependents. simpl.
    destruct (memb s deps) eqn:E; simpl.
    + rewrite move_to_end_eq, filter_app. simpl.
      assert (Hfn : is_dependent s m fn = false).
      { destruct (is_dependent s m fn) eqn:D; [|reflexivity].
        apply is_dependent_keys in D. contradiction. }
      rewrite Hfn. simpl. rewrite <- app_assoc. simpl. f_equal.
      unfold queue_delete. rewrite filter_filter. apply filter_ext.
      intros a. rewrite andb_true_r, (fn_eqb_sym a fn).
      now rewrite negb_orb.
    + f_equal. apply filter_ext. intros a. now rewrite andb_false_r.
Qed.

(** ** What the operations leave alone *)

Lemma same_control_refl st : same_control st st.
Proof. unfold same_control. intuition. apply incl_refl. Qed.

Lemma same_control_trans st1 st2 st3 :
  same_control st1 st2 -> same_control st2 st3 -> same_control st1 st3.
Proof.
  unfold same_control.
  intros (R1 & O1 & C1 & E1 & F1 & L1 & Q1) (R2 & O2 & C2 & E2 & F2 & L2 & Q2).
  repeat split; try congruence.
  - destruct (F1 H) as [A _]. rewrite R1 in F2. destruct (F2 H) as [B _]. congruence.
  - destruct (F1 H) as [_ A]. rewrite R1 in F2. destruct (F2 H) as [_ B]. congruence.
  - eapply incl_tran; eassumption.
Qed.

Lemma length_update_computation c f l :
  length (update_computation c f l) = length l.
Proof.
  revert c. induction l as [|x l IH]; intros [|c]; simpl; auto.
Qed.

Lemma map_fn_update_computation c f l :
  (forall x, c_fn (f x) = c_fn x) ->
  map c_fn (update_computation c f l) = map c_fn l.
Proof.
  intros Hf. revert c. induction l as [|x l IH]; intros [|c]; simpl;
    try reflexivity; f_equal; auto.
Qed.

Lemma map_fn_subscribe c s l :
  map c_fn (update_computation c (subscribe s) l) = map c_fn l.
Proof. now apply map_fn_update_computation. Qed.

Lemma map_fn_unsubscribe c l :
  map c_fn (update_computation c unsubscribe l) = map c_fn l.
Proof. now apply map_fn_update_computation. Qed.

Lemma map_fn_started c l :
  map c_fn (update_computation c started l) = map c_fn l.
Proof. now apply map_fn_update_computation. Qed.

Lemma incl_queue_add fn q : incl q (queue_add fn q).
Proof. intros x Hx. apply In_queue_add. now right. Qed.

Lemma same_control_rerun c st : same_control st (rerun c st).
Proof.
  unfold rerun. destruct (nth_error (computations st) c) as [x|];
    [|apply same_control_refl].
  destruct (c_initial x); [apply same_control_refl|].
  unfold wrapper_subsequent, same_control. cbn.
  destruct (runningEffects st) eqn:R; cbn.
  - rewrite R, map_fn_unsubscribe.
    repeat split; auto using incl_queue_add.
  - destruct (effectTaskIsScheduled st) eqn:T; cbn;
      rewrite ?R, map_fn_unsubscribe;
      repeat split; auto using incl_queue_add; discriminate.
Qed.

Lemma notify_invariant (P : State -> Prop) cs :
  (forall c s, P s -> P (rerun c s)) -> forall st, P st -> P (notify cs st).
Proof.
  intros Hstep. unfold notify.
  induction cs as [|c cs IH]; intros st H; simpl; auto.
Qed.

Lemma same_control_notify cs st : same_control st (notify cs st).
Proof.
  apply (notify_invariant (same_control st)).
  - intros c s H. eapply same_control_trans; [exact H | apply same_control_rerun].
  - apply same_control_refl.
Qed.

Lemma same_control__set s v st : same_control st (_set s v st).
Proof.
  unfold _set. destruct (Z.eqb (read_cell s st) v); [apply same_control_refl|].
  eapply same_control_trans; [|apply same_control_notify].
  unfold same_control. cbn. intuition. apply incl_refl.
Qed.

Lemma incl_scan s m q : incl q (scan s m q).
Proof. intros x Hx. apply In_scan. now left. Qed.

Lemma same_control_set s v st : same_control st (set s v st).
Proof.
  unfold set. destruct (runningEffects st) eqn:R; cbn;
    [|apply same_control__set].
  eapply same_control_trans; [|apply same_control__set].
  unfold same_control, requeue_dependents. cbn. intuition. apply incl_scan.
Qed.

Lemma same_control_get c s st : same_control st (snd (get c s st)).
Proof.
  unfold get, _get, same_control. cbn.
  destruct (runningEffects st) eqn:R; cbn; rewrite ?R, map_fn_subscribe;
    repeat split; auto using incl_refl.
Qed.


Lemma same_log_refl st : same_log st st.
Proof. unfold same_log. auto. Qed.

Lemma same_log_trans st1 st2 st3 :
  same_log st1 st2 -> same_log st2 st3 -> same_log st1 st3.
Proof. unfold same_log. intuition congruence. Qed.

Lemma same_log_rerun c st : same_log st (rerun c st).
Proof.
  unfold rerun. destruct (nth_error (computations st) c) as [x|];
    [|apply same_log_refl].
  destruct (c_initial x); [apply same_log_refl|].
  unfold wrapper_subsequent, same_log. cbn.
  destruct (runningEffects st); cbn; auto.
  destruct (effectTaskIsScheduled st); cbn; auto.
Qed.

Lemma same_log__set s v st : same_log st (_set s v st).
Proof.
  unfold _set. destruct (Z.eqb (read_cell s st) v); [apply same_log_refl|].
  apply (same_log_trans st (set_cells (write_cell s v (cells st)) st));
    [unfold same_log; cbn; auto|].
  apply (notify_invariant
           (same_log (set_cells (write_cell s v (cells st)) st))).
  - intros c s0 H. eapply same_log_trans; [exact H | apply same_log_rerun].
  - apply same_log_refl.
Qed.

Lemma same_log_set s v st : same_log st (set s v st).
Proof.
  unfold set. destruct (runningEffects st); cbn; [|apply same_log__set].
  eapply same_log_trans; [|apply same_log__set].
  unfold same_log, requeue_dependents. cbn. auto.
Qed.

Lemma calls_log_not_call fn e st :
  is_call_of fn e = false -> calls fn (log e st) = calls fn st.
Proof.
  intros H. unfold calls. cbn. rewrite filter_app. simpl. rewrite H.
  now rewrite app_nil_r.
Qed.

Lemma calls_get g c s st : calls g (snd (get c s st)) = calls g st.
Proof.
  unfold get, _get. cbn. destruct (runningEffects st); cbn;
    unfold calls; cbn; rewrite filter_app; simpl; now rewrite app_nil_r.
Qed.

Lemma calls_same_log g st st' : same_log st st' -> calls g st' = calls g st.
Proof. intros (T & _). unfold calls. now rewrite T. Qed.

Lemma same_control_exec fn c p st :
  same_control st (state_of (exec fn c p st)).
Proof.
  revert st. induction p as [v| |s k IH|s v k IH|v k IH]; intros st; simpl.
  - unfold same_control. cbn. intuition. apply incl_refl.
  - apply same_control_refl.
  - destruct (get c s st) as [x st1] eqn:G.
    eapply same_control_trans; [|apply IH].
    change st1 with (snd (x, st1)). rewrite <- G. apply same_control_get.
  - eapply same_control_trans; [apply same_control_set | apply IH].
  - eapply same_control_trans; [|apply IH].
    unfold same_control. cbn. intuition. apply incl_refl.
Qed.

Lemma calls_exec g fn c p st :
  calls g (state_of (exec fn c p st)) = calls g st.
Proof.
  revert st. induction p as [v| |s k IH|s v k IH|v k IH]; intros st; simpl.
  - now apply calls_log_not_call.
  - reflexivity.
  - destruct (get c s st) as [x st1] eqn:G. rewrite IH.
    change st1 with (snd (x, st1)). rewrite <- G. apply calls_get.
  - rewrite IH. apply calls_same_log, same_log_set.
  - rewrite IH. reflexivity.
Qed.


Lemma update_computation_last f l x :
  update_computation (length l) f (l ++ [x]) = l ++ [f x].
Proof. induction l as [|a l IH]; simpl; [reflexivity | now f_equal]. Qed.

Section CreateFacts.

Variable body : EffectFunction -> option Z -> Code.

Lemma createDeferredEffect_eq fn value st :
  createDeferredEffect body fn value st =
  match exec fn (length (computations st)) (body fn value)
          (about_to_call fn value st) with
  | Normal st2 => Normal (onCleanup fn st2)
  | r => r
  end.
Proof.
  unfold createDeferredEffect, wrapper_initial, about_to_call. cbn.
  now rewrite update_computation_last.
Qed.

Lemma drain_step fuel fn q st :
  effectQueue st = fn :: q ->
  drain body (S fuel) st =
  match createDeferredEffect body fn None (dequeued fn st) with
  | Normal st2 => drain body fuel st2
  | r => r
  end.
Proof. intros H. simpl. unfold dequeued. rewrite H. reflexivity. Qed.

Lemma onCleanup_cleanups fn st :
  cleanups (onCleanup fn st) =
  cleanups st ++ match owner st with Some o => [(o, fn)] | None => [] end.
Proof.
  unfold onCleanup. destruct (owner st); cbn; [reflexivity|].
  now rewrite app_nil_r.
Qed.

Lemma same_control_onCleanup fn st :
  runningEffects (onCleanup fn st) = runningEffects st /\
  effectTaskIsScheduled (onCleanup fn st) = effectTaskIsScheduled st /\
  microtasks (onCleanup fn st) = microtasks st /\
  effectQueue (onCleanup fn st) = effectQueue st /\
  computations (onCleanup fn st) = computations st /\
  trace (onCleanup fn st) = trace st /\
  effectDeps (onCleanup fn st) = effectDeps st /\
  owner (onCleanup fn st) = owner st /\
  currentEffect (onCleanup fn st) = currentEffect st.
Proof. unfold onCleanup. destruct (owner st) eqn:O; cbn; repeat split; auto. Qed.

(** What a call of [createDeferredEffect] does to the control state,
    whether [fn] returns or throws. *)
Lemma createDeferredEffect_control fn value st :
  let st' := state_of (createDeferredEffect body fn value st) in
  runningEffects st' = runningEffects st /\
  owner st' = owner st /\
  currentEffect st' = fn /\
  (runningEffects st = true ->
   effectTaskIsScheduled st' = effectTaskIsScheduled st /\
   microtasks st' = microtasks st) /\
  map c_fn (computations st') = map c_fn (computations st) ++ [fn] /\
  incl (effectQueue st) (effectQueue st') /\
  (forall g, calls g st' = (if fn_eqb g fn then 1 else 0) + calls g st).
Proof.
  cbn zeta. rewrite createDeferredEffect_eq.
  pose proof (same_control_exec fn (length (computations st)) (body fn value)
                (about_to_call fn value st)) as (R & O & C & E & F & L & Q).
  pose proof (fun g => calls_exec g fn (length (computations st)) (body fn value)
                (about_to_call fn value st)) as K.
  assert (Kc : forall g, calls g (about_to_call fn value st)
                         = (if fn_eqb g fn then 1 else 0) + calls g st).
  { intros g. unfold calls, about_to_call. cbn. rewrite filter_app, length_app.
    simpl. destruct (fn_eqb g fn); simpl; lia. }
  assert (Lc : map c_fn (computations (about_to_call fn value st))
               = map c_fn (computations st) ++ [fn]).
  { unfold about_to_call. cbn. now rewrite map_app. }
  destruct (exec fn (length (computations st)) (body fn value)
              (about_to_call fn value st)) as [s|s|s]; cbn [state_of] in *.
  - destruct (same_control_onCleanup fn s) as (A1 & A2 & A3 & A4 & A5 & A6 & _ & A8 & A9).
    rewrite A1, A2, A3, A4, A5, A8, A9. unfold calls. rewrite A6.
    repeat split; try assumption; try (now apply F); try congruence.
    intros g. rewrite <- Kc. apply K.
  - repeat split; try assumption; try (now apply F); try congruence.
    intros g. rewrite <- Kc. apply K.
  - repeat split; try assumption; try (now apply F); try congruence.
    intros g. rewrite <- Kc. apply K.
Qed.

(** The cleanup callback is registered exactly when [fn] returned and a
    scope is active. *)
Lemma createDeferredEffect_cleanups fn value st :
  cleanups (state_of (createDeferredEffect body fn value st)) =
  cleanups st ++
  match createDeferredEffect body fn value st, owner st with
  | Normal _, Some o => [(o, fn)]
  | _, _ => []
  end.
Proof.
  rewrite createDeferredEffect_eq.
  pose proof (same_control_exec fn (length (computations st)) (body fn value)
                (about_to_call fn value st)) as (_ & O & C & _).
  destruct (exec fn (length (computations st)) (body fn value)
              (about_to_call fn value st)) as [s|s|s]; cbn [state_of] in *.
  - rewrite onCleanup_cleanups, C, O. reflexivity.
  - rewrite C. cbn. now rewrite app_nil_r.
  - rewrite C. cbn. now rewrite app_nil_r.
Qed.

Lemma createDeferredEffect_never_out_of_fuel fn value st s :
  createDeferredEffect body fn value st <> OutOfFuel s.
Proof.
  rewrite createDeferredEffect_eq.
  assert (H : forall c p st0 s0, exec fn c p st0 <> OutOfFuel s0).
  { intros c p. induction p as [v| |x k IH|x v k IH|v k IH]; intros st0 s0;
      simpl; try discriminate; auto.
    destruct (get c x st0). apply IH. }
  destruct (exec fn (length (computations st)) (body fn value)
              (about_to_call fn value st)) eqn:E; try discriminate.
  exfalso. eapply H. exact E.
Qed.

End CreateFacts.

(** ** Base effects under reads and writes *)

Lemma shrinks_refl x : shrinks x x.
Proof. unfold shrinks. auto using incl_refl. Qed.

Lemma shrinks_trans x y z : shrinks x y -> shrinks y z -> shrinks x z.
Proof.
  unfold shrinks. intros (A1 & A2 & A3) (B1 & B2 & B3).
  repeat split; try congruence. eapply incl_tran; eassumption.
Qed.

Lemma Forall2_shrinks_refl l : Forall2 shrinks l l.
Proof. induction l; constructor; auto using shrinks_refl. Qed.

Lemma Forall2_shrinks_trans l1 l2 l3 :
  Forall2 shrinks l1 l2 -> Forall2 shrinks l2 l3 -> Forall2 shrinks l1 l3.
Proof.
  intros H. revert l3. induction H as [|x y l1 l2 Hxy H IH]; intros l3 H3;
    inversion H3; subst; constructor.
  - eapply shrinks_trans; eassumption.
  - now apply IH.
Qed.

Lemma Forall2_shrinks_unsubscribe c l :
  Forall2 shrinks l (update_computation c unsubscribe l).
Proof.
  revert c. induction l as [|x l IH]; intros [|c]; simpl; constructor;
    auto using shrinks_refl, Forall2_shrinks_refl.
  unfold shrinks. cbn. repeat split; auto. intros y [].
Qed.

Lemma Forall2_nth_error_r {A} (R : A -> A -> Prop) l l' i x' :
  Forall2 R l l' -> nth_error l' i = Some x' ->
  exists x, nth_error l i = Some x /\ R x x'.
Proof.
  intros H. revert i. induction H as [|x y l l' Hxy H IH]; intros [|i] E;
    simpl in *; try discriminate.
  - injection E as <-. now exists x.
  - now apply IH.
Qed.

Lemma Forall2_nth_error_l {A} (R : A -> A -> Prop) l l' i x :
  Forall2 R l l' -> nth_error l i = Some x ->
  exists x', nth_error l' i = Some x' /\ R x x'.
Proof.
  intros H. revert i. induction H as [|a y l l' Hxy H IH]; intros [|i] E;
    simpl in *; try discriminate.
  - injection E as <-. now exists y.
  - now apply IH.
Qed.

Lemma Forall2_In_r {A} (R : A -> A -> Prop) l l' x' :
  Forall2 R l l' -> In x' l' -> exists x, In x l /\ R x x'.
Proof.
  intros H Hin. apply In_nth_error in Hin. destruct Hin as [i E].
  destruct (Forall2_nth_error_r R _ _ i _ H E) as (x & Ex & Hx).
  exists x. split; [eapply nth_error_In; eassumption | assumption].
Qed.

Lemma computations_rerun c st :
  Forall2 shrinks (computations st) (computations (rerun c st)).
Proof.
  unfold rerun. destruct (nth_error (computations st) c) as [x|];
    [|apply Forall2_shrinks_refl].
  destruct (c_initial x); [apply Forall2_shrinks_refl|].
  unfold wrapper_subsequent. cbn.
  destruct (runningEffects st); cbn; [apply Forall2_shrinks_unsubscribe|].
  destruct (effectTaskIsScheduled st); cbn; apply Forall2_shrinks_unsubscribe.
Qed.

Lemma computations_notify cs st :
  Forall2 shrinks (computations st) (computations (notify cs st)).
Proof.
  apply (notify_invariant (fun s => Forall2 shrinks (computations st) (computations s))).
  - intros c s H. eapply Forall2_shrinks_trans; [exact H | apply computations_rerun].
  - apply Forall2_shrinks_refl.
Qed.

Lemma computations__set s v st :
  Forall2 shrinks (computations st) (computations (_set s v st)).
Proof.
  unfold _set. destruct (Z.eqb (read_cell s st) v); [apply Forall2_shrinks_refl|].
  apply (computations_notify _ (set_cells (write_cell s v (cells st)) st)).
Qed.

Lemma computations_set s v st :
  Forall2 shrinks (computations st) (computations (set s v st)).
Proof.
  unfold set. destruct (runningEffects st); cbn; [|apply computations__set].
  apply (computations__set s v (requeue_dependents s st)).
Qed.

(** A rerun adds at most the function of the base effect it reruns. *)
Lemma queue_rerun c st g :
  In g (effectQueue (rerun c st)) ->
  In g (effectQueue st) \/
  exists x, nth_error (computations st) c = Some x /\ c_fn x = g.
Proof.
  unfold rerun. destruct (nth_error (computations st) c) as [x|]; [|auto].
  destruct (c_initial x); [auto|].
  unfold wrapper_subsequent. cbn.
  assert (H : In g (queue_add (c_fn x) (effectQueue st)) ->
              In g (effectQueue st) \/ exists x0, Some x = Some x0 /\ c_fn x0 = g).
  { intros H. apply In_queue_add in H. destruct H as [->|H]; [right; eauto | now left]. }
  destruct (runningEffects st); cbn; [exact H|].
  destruct (effectTaskIsScheduled st); cbn; exact H.
Qed.

Lemma queue_notify cs st g :
  In g (effectQueue (notify cs st)) ->
  In g (effectQueue st) \/
  exists c x, In c cs /\ nth_error (computations st) c = Some x /\ c_fn x = g.
Proof.
  unfold notify. revert st. induction cs as [|c cs IH]; intros st H; simpl in H.
  - now left.
  - apply IH in H. destruct H as [H|(c' & x' & Hc' & E & Hg)].
    + apply queue_rerun in H. destruct H as [H|(x & E & Hg)]; [now left|].
      right. exists c, x. simpl. auto.
    + destruct (Forall2_nth_error_r shrinks _ _ c' _ (computations_rerun c st) E)
        as (x & Ex & Hx & _).
      right. exists c', x. simpl. repeat split; auto. congruence.
Qed.

Lemma observers_from_spec i s l c :
  In c (observers_from i s l) ->
  exists x, i <= c /\ nth_error l (c - i) = Some x /\ In s (c_sources x).
Proof.
  revert i. induction l as [|a l IH]; intros i H; simpl in H; [contradiction|].
  destruct (memb s (c_sources a)) eqn:M.
  - destruct H as [<-|H].
    + exists a. rewrite Nat.sub_diag. simpl. apply memb_In in M. auto.
    + destruct (IH _ H) as (x & Hle & E & Hs). exists x.
      replace (c - i) with (S (c - S i)) by lia. simpl. repeat split; auto. lia.
  - destruct (IH _ H) as (x & Hle & E & Hs). exists x.
    replace (c - i) with (S (c - S i)) by lia. simpl. repeat split; auto. lia.
Qed.

(** A base write queues only functions of base effects that observe the
    signal. *)
Lemma queue__set s v st g :
  In g (effectQueue (_set s v st)) ->
  In g (effectQueue st) \/ observed_by s g st.
Proof.
  unfold _set. destruct (Z.eqb (read_cell s st) v); [auto|].
  intros H. apply queue_notify in H. cbn in H.
  destruct H as [H|(c & x & Hc & E & Hg)]; [now left|].
  unfold observers in Hc. cbn in Hc. apply observers_from_spec in Hc.
  destruct Hc as (x' & _ & E' & Hs). rewrite Nat.sub_0_r in E'.
  right. exists x. split; [eapply nth_error_In; eassumption|].
  split; [assumption | congruence].
Qed.

(** A tracked write queues only recorded dependents and observers. *)
Lemma queue_set s v st g :
  In g (effectQueue (set s v st)) ->
  In g (effectQueue st) \/
  (runningEffects st = true /\ is_dependent s (effectDeps st) g = true) \/
  observed_by s g st.
Proof.
  unfold set. destruct (runningEffects st); cbn; intros H.
  - apply queue__set in H. destruct H as [H|H]; [|now right; right].
    unfold requeue_dependents in H. cbn in H. apply In_scan in H.
    destruct H; auto.
  - apply queue__set in H. destruct H; auto.
Qed.

(** ** The registry under reads *)

Lemma deps_get_record g f s m :
  deps_get g (deps_record f s m) =
  if fn_eqb g f
  then Some (set_add s (match deps_get f m with Some d => d | None => [] end))
  else deps_get g m.
Proof.
  induction m as [|[k d] m IH]; simpl.
  - destruct (fn_eqb g f); reflexivity.
  - destruct (fn_eqb f k) eqn:Efk; simpl.
    + apply fn_eqb_eq in Efk. subst k.
      destruct (fn_eqb g f); reflexivity.
    + destruct (fn_eqb g k) eqn:Egk.
      * apply fn_eqb_eq in Egk. subst k.
        rewrite fn_eqb_sym in Efk. now rewrite Efk.
      * exact IH.
Qed.

Lemma keys_record f s m g :
  In g (map fst (deps_record f s m)) <-> In g (map fst m) \/ g = f.
Proof.
  induction m as [|[k d] m IH]; simpl.
  - intuition.
  - destruct (fn_eqb f k) eqn:E; simpl.
    + apply fn_eqb_eq in E. subst k. intuition.
    + rewrite IH. intuition.
Qed.

Lemma NoDup_keys_record f s m :
  NoDup (map fst m) -> NoDup (map fst (deps_record f s m)).
Proof.
  induction m as [|[k d] m IH]; simpl; intros H.
  - constructor; [intros [] | constructor].
  - inversion H as [|? ? Hk Hm]; subst.
    destruct (fn_eqb f k) eqn:E; simpl.
    + now constructor.
    + constructor; [|now apply IH].
      rewrite keys_record. intros [Hin| ->]; [contradiction|].
      apply fn_eqb_neq in E. now apply E.
Qed.

Lemma keys_clear f m : map fst (deps_clear f m) = map fst m.
Proof.
  induction m as [|[k d] m IH]; simpl; [reflexivity|].
  destruct (fn_eqb f k); simpl; [reflexivity | now f_equal].
Qed.

Lemma deps_get_clear g f m :
  deps_get g (deps_clear f m) =
  if fn_eqb g f
  then match deps_get f m with Some _ => Some [] | None => None end
  else deps_get g m.
Proof.
  induction m as [|[k d] m IH]; simpl.
  - destruct (fn_eqb g f); reflexivity.
  - destruct (fn_eqb f k) eqn:Efk; simpl.
    + apply fn_eqb_eq in Efk. subst k. destruct (fn_eqb g f); reflexivity.
    + destruct (fn_eqb g k) eqn:Egk.
      * apply fn_eqb_eq in Egk. subst k.
        rewrite fn_eqb_sym in Efk. now rewrite Efk.
      * exact IH.
Qed.


(** ** One call of an effect function *)

Lemma tracked_refl c st : tracked c st [] st.
Proof.
  unfold tracked. rewrite app_nil_r. repeat split; auto.
  - intros [H|(_ & _ & [])]. assumption.
  - intros i x' E. exists x'. repeat split; auto.
Qed.

Lemma tracked_trans c st1 e1 st2 e2 st3 :
  tracked c st1 e1 st2 -> tracked c st2 e2 st3 -> tracked c st1 (e1 ++ e2) st3.
Proof.
  unfold tracked, read_in.
  intros (T1 & R1 & C1 & D1 & U1 & N1 & K1 & P1)
         (T2 & R2 & C2 & D2 & U2 & N2 & K2 & P2).
  split; [rewrite T2, T1; symmetry; apply app_assoc|].
  split; [congruence|]. split; [congruence|].
  split; [|split; [|split; [|split]]].
  - intros g s. rewrite D2, D1, R1, C1, in_app_iff. intuition.
  - intros H. rewrite U2, U1; congruence.
  - auto.
  - intros g H. apply K2 in H. rewrite R1, C1 in H.
    destruct H as [H|H]; [apply K1 in H; assumption | now right].
  - intros i x3 E3. destruct (P2 i x3 E3) as (x2 & E2 & F2 & O2 & S2).
    destruct (P1 i x2 E2) as (x1 & E1 & F1 & O1 & S1).
    exists x1. repeat split; try congruence.
    intros s H. rewrite in_app_iff.
    destruct (S2 s H) as [H2|[-> H2]]; [|now auto].
    destruct (S1 s H2) as [H1|[-> H1]]; auto.
Qed.

Lemma nth_error_update_computation c f l i x' :
  nth_error (update_computation c f l) i = Some x' ->
  exists x, nth_error l i = Some x /\ (x' = x \/ (i = c /\ x' = f x)).
Proof.
  revert c i. induction l as [|a l IH]; intros [|c] [|i] E; simpl in *;
    try discriminate.
  - injection E as <-. exists a. auto.
  - exists x'. auto.
  - injection E as <-. exists a. auto.
  - destruct (IH _ _ E) as (x & Ex & [->|[-> ->]]); exists x; auto.
Qed.

Lemma tracked_get c s st : tracked c st [SignalRead s] (snd (get c s st)).
Proof.
  assert (P : forall st0 : State,
            forall i x', nth_error
                (update_computation c (subscribe s) (computations st0)) i = Some x' ->
              exists x, nth_error (computations st0) i = Some x /\
                c_fn x' = c_fn x /\ c_owner x' = c_owner x /\
                forall s0, In s0 (c_sources x') ->
                  In s0 (c_sources x) \/ (i = c /\ read_in s0 [SignalRead s])).
  { intros st0 i x' E. apply nth_error_update_computation in E.
    destruct E as (x & Ex & [->|[-> ->]]); exists x; repeat split; auto.
    cbn. intros s0 H. apply In_set_add in H. destruct H as [->|H]; [|now left].
    right. split; [reflexivity|]. now left. }
  unfold get, _get, tracked, read_in, deps_of. cbn.
  destruct (runningEffects st) eqn:R; cbn; rewrite ?R.
  - split; [reflexivity|]. split; [reflexivity|]. split; [reflexivity|].
    split; [|split; [|split; [|split]]].
    + intros g s0. rewrite deps_get_record. split.
      * destruct (fn_eqb g (currentEffect st)) eqn:E; [|now left].
        apply fn_eqb_eq in E. subst g. rewrite In_set_add.
        intros [-> |H]; [right; repeat split; now left | now left].
      * intros [H|(_ & -> & [E|[]])].
        -- destruct (fn_eqb g (currentEffect st)) eqn:E; [|assumption].
           apply fn_eqb_eq in E. subst g. apply In_set_add. now right.
        -- injection E as ->. rewrite fn_eqb_refl. apply In_set_add. now left.
    + discriminate.
    + apply NoDup_keys_record.
    + intros g H. apply keys_record in H. destruct H; auto.
    + apply P.
  - split; [reflexivity|]. split; [reflexivity|]. split; [reflexivity|].
    split; [|split; [|split; [|split]]]; auto.
    intros g s0. split; [now left|].
    intros [H|(E & _)]; [assumption | discriminate].
Qed.

Lemma tracked_set c s v st : tracked c st [] (set s v st).
Proof.
  destruct (same_log_set s v st) as (T & _ & D).
  destruct (same_control_set s v st) as (R & _ & _ & C & _).
  unfold tracked, deps_of. rewrite T, D, app_nil_r.
  repeat split; auto.
  - intros [H|(_ & _ & [])]. assumption.
  - intros i x' E.
    destruct (Forall2_nth_error_r shrinks _ _ i _ (computations_set s v st) E)
      as (x & Ex & F & O & I).
    exists x. repeat split; auto.
Qed.

Lemma tracked_exec fn c p st :
  exists evs, tracked c st evs (state_of (exec fn c p st)).
Proof.
  revert st. induction p as [v| |s k IH|s v k IH|v k IH]; intros st; simpl.
  - exists [Returned fn v]. unfold tracked, read_in, deps_of. cbn.
    repeat split; auto.
    + intros [H|(_ & _ & [E|[]])]; [assumption | discriminate].
    + intros i x' E. exists x'. repeat split; auto.
  - exists []. apply tracked_refl.
  - destruct (get c s st) as [x st1] eqn:G.
    destruct (IH x st1) as [evs H].
    exists ([SignalRead s] ++ evs).
    eapply tracked_trans; [|exact H].
    change st1 with (snd (x, st1)). rewrite <- G. apply tracked_get.
  - destruct (IH (set s v st)) as [evs H].
    exists ([] ++ evs).
    eapply tracked_trans; [apply tracked_set | exact H].
  - destruct (IH (set_out (out st ++ [v]) st)) as [evs H].
    exists ([] ++ evs).
    eapply tracked_trans; [|exact H].
    unfold tracked, deps_of. cbn. rewrite app_nil_r. repeat split; auto.
    + intros [H0|(_ & _ & [])]. assumption.
    + intros i x' E. exists x'. repeat split; auto.
Qed.

Lemma deps_of_about_to_call fn value st g :
  deps_of g (about_to_call fn value st) =
  if fn_eqb g fn then [] else deps_of g st.
Proof.
  unfold deps_of, about_to_call. cbn. rewrite deps_get_clear.
  destruct (fn_eqb g fn) eqn:E; [|reflexivity].
  destruct (deps_get fn (effectDeps st)); reflexivity.
Qed.

Section CallFacts.

Variable body : EffectFunction -> option Z -> Code.

(** The registry and the base effects after [createDeferredEffect], whether
    [fn] returned or threw: the set of [fn] holds exactly the signals read
    by this call when a flush is in progress and is empty otherwise; the
    base effect created by the call observes at most the signals read and
    the older ones observe nothing new. *)
Lemma createDeferredEffect_tracked fn value st :
  exists evs,
    trace (state_of (createDeferredEffect body fn value st))
      = trace st ++ Called fn value :: evs /\
    (forall s, In s (deps_of fn (state_of (createDeferredEffect body fn value st)))
               <-> runningEffects st = true /\ read_in s evs) /\
    (forall g s, g <> fn ->
       (In s (deps_of g (state_of (createDeferredEffect body fn value st)))
        <-> In s (deps_of g st))) /\
    (runningEffects st = false ->
     effectDeps (state_of (createDeferredEffect body fn value st))
       = deps_clear fn (effectDeps st)) /\
    (NoDup (map fst (effectDeps st)) ->
     NoDup (map fst (effectDeps (state_of (createDeferredEffect body fn value st))))) /\
    (forall g,
       In g (map fst (effectDeps (state_of (createDeferredEffect body fn value st)))) ->
       In g (map fst (effectDeps st)) \/ (runningEffects st = true /\ g = fn)) /\
    (forall i x',
       nth_error (computations (state_of (createDeferredEffect body fn value st))) i
         = Some x' ->
       (exists x, nth_error (computations st) i = Some x /\ shrinks x x') \/
       (i = length (computations st) /\ c_fn x' = fn /\ c_owner x' = owner st /\
        forall s, In s (c_sources x') -> read_in s evs)).
Proof.
  rewrite createDeferredEffect_eq.
  destruct (tracked_exec fn (length (computations st)) (body fn value)
              (about_to_call fn value st))
    as (evs & T & R & C & D & U & N & K & P).
  exists evs.
  assert (H : forall s0,
    (s0 = state_of (exec fn (length (computations st)) (body fn value)
                      (about_to_call fn value st)) \/
     s0 = onCleanup fn (state_of (exec fn (length (computations st)) (body fn value)
                      (about_to_call fn value st)))) ->
    trace s0 = trace st ++ Called fn value :: evs /\
    (forall s, In s (deps_of fn s0) <-> runningEffects st = true /\ read_in s evs) /\
    (forall g s, g <> fn -> (In s (deps_of g s0) <-> In s (deps_of g st))) /\
    (runningEffects st = false -> effectDeps s0 = deps_clear fn (effectDeps st)) /\
    (NoDup (map fst (effectDeps st)) -> NoDup (map fst (effectDeps s0))) /\
    (forall g, In g (map fst (effectDeps s0)) ->
       In g (map fst (effectDeps st)) \/ (runningEffects st = true /\ g = fn)) /\
    (forall i x', nth_error (computations s0) i = Some x' ->
       (exists x, nth_error (computations st) i = Some x /\ shrinks x x') \/
       (i = length (computations st) /\ c_fn x' = fn /\ c_owner x' = owner st /\
        forall s, In s (c_sources x') -> read_in s evs))).
  { intros s0 Hs0.
    assert (E : trace s0 = trace (state_of (exec fn (length (computations st))
                  (body fn value) (about_to_call fn value st))) /\
                effectDeps s0 = effectDeps (state_of (exec fn (length (computations st))
                  (body fn value) (about_to_call fn value st))) /\
                computations s0 = computations (state_of (exec fn (length (computations st))
                  (body fn value) (about_to_call fn value st)))).
    { destruct Hs0 as [-> | ->]; [auto|].
      destruct (same_control_onCleanup fn (state_of (exec fn (length (computations st))
                  (body fn value) (about_to_call fn value st))))
        as (_ & _ & _ & _ & A5 & A6 & A7 & _). auto. }
    destruct E as (E1 & E2 & E3). unfold deps_of in *. rewrite E1, E2, E3.
    change (runningEffects (about_to_call fn value st)) with (runningEffects st) in *.
    change (currentEffect (about_to_call fn value st)) with fn in *.
    change (map fst (effectDeps (about_to_call fn value st)))
      with (map fst (deps_clear fn (effectDeps st))) in *.
    rewrite keys_clear in *.
    split; [rewrite T; unfold about_to_call; cbn; now rewrite <- app_assoc|].
    split; [|split; [|split; [|split; [|split]]]].
    - intros s. rewrite D.
      pose proof (deps_of_about_to_call fn value st fn) as A.
      unfold deps_of in A. rewrite A, fn_eqb_refl. cbn. intuition.
    - intros g s Hg. rewrite D.
      pose proof (deps_of_about_to_call fn value st g) as A.
      unfold deps_of in A. rewrite A. apply fn_eqb_neq in Hg. rewrite Hg.
      apply fn_eqb_neq in Hg. intuition.
    - intros H. rewrite (U H). reflexivity.
    - exact N.
    - exact K.
    - intros i x' Ex. destruct (P i x' Ex) as (x & Ei & F & O & S).
      unfold about_to_call in Ei. cbn in Ei.
      destruct (Nat.lt_ge_cases i (length (computations st))) as [Hlt|Hge].
      + rewrite nth_error_app1 in Ei by assumption.
        left. exists x. split; [assumption|]. unfold shrinks.
        repeat split; auto. intros s Hs. destruct (S s Hs) as [H|[-> _]]; [assumption|lia].
      + rewrite nth_error_app2 in Ei by assumption.
        destruct (i - length (computations st)) as [|k] eqn:Ek; simpl in Ei.
        * injection Ei as <-. cbn in *. right.
          assert (i = length (computations st)) by lia.
          repeat split; auto. intros s Hs. destruct (S s Hs) as [[]|[_ H']]. exact H'.
        * destruct k; discriminate. }
  destruct (exec fn (length (computations st)) (body fn value)
              (about_to_call fn value st)) as [s|s|s]; cbn [state_of] in *;
    apply H; auto.
Qed.

End CallFacts.

(** ** The claims *)

Lemma drain_empty body fuel st :
  effectQueue st = [] -> drain body fuel st = Normal st.
Proof. intros H. destruct fuel; simpl; now rewrite H. Qed.

(** A flush that returns or throws with some fuel does the same with more. *)
Lemma drain_more_fuel body n m st r :
  n <= m -> drain body n st = r -> (forall s, r <> OutOfFuel s) ->
  drain body m st = r.
Proof.
  revert m st. induction n as [|n IH]; intros m st Hle H Hr.
  - simpl in H. destruct (effectQueue st) eqn:Q.
    + subst r. now apply drain_empty.
    + subst r. exfalso. now apply (Hr st).
  - destruct m as [|m]; [lia|]. simpl in *.
    destruct (effectQueue st) as [|fn q]; [assumption|].
    destruct (createDeferredEffect body fn None _) as [st2|st2|st2];
      [|assumption|assumption].
    apply IH; [lia | assumption | assumption].
Qed.

Lemma runEffects_more_fuel body n m st st' :
  n <= m -> runEffects body n st = Normal st' -> runEffects body m st = Normal st'.
Proof.
  unfold runEffects. intros Hle H.
  destruct (drain body n (set_runningEffects true st)) as [s|s|s] eqn:D;
    try discriminate.
  rewrite (drain_more_fuel body n m _ _ Hle D); [assumption|].
  intros s0. discriminate.
Qed.

Lemma microtask_more_fuel body n m st st' :
  n <= m -> microtask body n st = Normal st' -> microtask body m st = Normal st'.
Proof.
  unfold microtask. intros Hle. destruct (microtasks st) as [|[o|] rest];
    [auto | | apply runEffects_more_fuel; assumption].
  unfold runWithOwner.
  destruct (runEffects body n _) as [s|s|s] eqn:D; try discriminate.
  intros H. now rewrite (runEffects_more_fuel body n m _ _ Hle D).
Qed.

(** C1: with [S = trackedSignal(1)] and a deferred effect that pushes
    [S.read()], registration runs the effect once ([out = [1]]); the
    synchronous writes [S.write(2); S.write(3)] do not run it again before
    the microtask ([out] still [[1]]); the next microtask replays it exactly
    once with the latest value, so [out = [1; 3]] and not [[1; 2; 3]]. *)
Theorem C1_two_writes_one_replay :
  forall fuel,
  exists st1 st2 st3,
    createDeferredEffect Scenario.push_S Scenario.f None Scenario.with_S = Normal st1 /\
    out st1 = [1%Z] /\ calls Scenario.f st1 = 1 /\
    st2 = set Scenario.sig_S 3 (set Scenario.sig_S 2 st1) /\
    out st2 = [1%Z] /\ calls Scenario.f st2 = 1 /\
    length (microtasks st2) = 1 /\
    microtask Scenario.push_S (S fuel) st2 = Normal st3 /\
    out st3 = [1%Z; 3%Z] /\ out st3 <> [1%Z; 2%Z; 3%Z] /\
    calls Scenario.f st3 = 2 /\ microtasks st3 = [].
Proof.
  intros fuel.
  exists (state_of (createDeferredEffect Scenario.push_S Scenario.f None Scenario.with_S)).
  exists (set Scenario.sig_S 3 (set Scenario.sig_S 2
            (state_of (createDeferredEffect Scenario.push_S Scenario.f None
                         Scenario.with_S)))).
  exists (state_of (microtask Scenario.push_S 1
            (set Scenario.sig_S 3 (set Scenario.sig_S 2
               (state_of (createDeferredEffect Scenario.push_S Scenario.f None
                            Scenario.with_S)))))).
  split; [vm_compute; reflexivity|]. split; [vm_compute; reflexivity|].
  split; [vm_compute; reflexivity|]. split; [reflexivity|].
  split; [vm_compute; reflexivity|]. split; [vm_compute; reflexivity|].
  split; [vm_compute; reflexivity|].
  split.
  - apply (microtask_more_fuel _ 1); [lia|]. vm_compute. reflexivity.
  - repeat split; try (vm_compute; reflexivity). vm_compute. discriminate.
Qed.

(** C2: a tracked write during a flush moves every effect whose recorded
    dependency set contains the written signal's setter to the end of the
    queue, in the order of the registry, before the base writer runs; no
    dependent is skipped, whether it was queued or has already been
    dequeued. *)
Theorem C2_tracked_write_requeues_every_dependent s v st :
  runningEffects st = true ->
  NoDup (map fst (effectDeps st)) ->
  set s v st = _set s v (requeue_dependents s st) /\
  effectQueue (requeue_dependents s st) =
    filter (fun g => negb (is_dependent s (effectDeps st) g)) (effectQueue st)
    ++ dependents s (effectDeps st) /\
  (forall fn, In fn (dependents s (effectDeps st)) <-> In s (deps_of fn st)) /\
  (forall fn, In s (deps_of fn st) -> In fn (effectQueue (set s v st))).
Proof.
  intros R Hnd. unfold set. rewrite R. cbn [negb].
  split; [reflexivity|]. split; [apply scan_eq; assumption|].
  assert (Hdep : forall fn, In fn (dependents s (effectDeps st)) <-> In s (deps_of fn st)).
  { intros fn. unfold dependents, deps_of. rewrite in_map_iff. split.
    - intros ([g d] & E & Hin). simpl in E. subst g.
      apply filter_In in Hin. destruct Hin as [Hin Hm].
      assert (D : is_dependent s (effectDeps st) fn = true).
      { unfold is_dependent. apply existsb_exists. exists (fn, d).
        split; [assumption|]. simpl. now rewrite fn_eqb_refl. }
      destruct (is_dependent_unique s _ fn Hnd D) as (d' & -> & Hd'). assumption.
    - destruct (deps_get fn (effectDeps st)) as [d|] eqn:G; [|intros []].
      intros Hin. clear Hnd. revert G.
      induction (effectDeps st) as [|[g d'] m IH]; simpl; [discriminate|].
      destruct (fn_eqb fn g) eqn:E.
      + intros H. injection H as ->. apply fn_eqb_eq in E. subst g.
        exists (fn, d). split; [reflexivity|].
        apply memb_In in Hin. rewrite Hin. now left.
      + intros H. destruct (IH H) as (e & E1 & E2).
        exists e. split; [assumption|].
        destruct (memb s d'); [now right | assumption]. }
  split; [exact Hdep|].
  intros fn Hin.
  destruct (same_control__set s v (requeue_dependents s st))
    as (_ & _ & _ & _ & _ & _ & Hq).
  apply Hq. unfold requeue_dependents. cbn.
  rewrite scan_eq by assumption. apply in_or_app. right. now apply Hdep.
Qed.

(** The theorem of C2 on a flush in which [f] runs and [h], [g] are pending. *)
Lemma C2_witness :
  runningEffects ScenarioRequeue.draining = true /\
  effectQueue (requeue_dependents 0 ScenarioRequeue.draining)
    = [Scenario.g; Scenario.f; Scenario.h].
Proof.
  assert (R : runningEffects ScenarioRequeue.draining = true)
    by (vm_compute; reflexivity).
  split; [exact R|].
  pose proof (C2_tracked_write_requeues_every_dependent 0 5%Z
                ScenarioRequeue.draining R) as H.
  assert (Hnd : NoDup (map fst (effectDeps ScenarioRequeue.draining))).
  { cbn. repeat constructor; cbn; intuition discriminate. }
  destruct (H Hnd) as (_ & E & _). exact E.
Defined.

Section Flush.

Variable body : EffectFunction -> option Z -> Code.





End Flush.



Section Registry.

Variable body : EffectFunction -> option Z -> Code.

(** C3 (as amended): the flush loop replays the entry it visits by calling
    [createDeferredEffect] anew, so the replay is a first run: [fn] is
    called with [undefined], not with the value it returned before, and its
    dependency set is emptied first, so that afterwards it holds exactly
    the signals read during the replay. *)
Theorem C3_replay_is_a_first_run fuel fn q st :
  effectQueue st = fn :: q ->
  runningEffects st = true ->
  (drain body (S fuel) st =
   match createDeferredEffect body fn None (dequeued fn st) with
   | Normal st2 => drain body fuel st2
   | r => r
   end) /\
  exists evs,
    trace (state_of (createDeferredEffect body fn None (dequeued fn st)))
      = trace st ++ Called fn None :: evs /\
    (forall prev, In (Called fn prev) (Called fn None :: evs) -> prev = None) /\
    currentEffect (state_of (createDeferredEffect body fn None (dequeued fn st))) = fn /\
    (forall s,
       In s (deps_of fn (state_of (createDeferredEffect body fn None (dequeued fn st))))
       <-> read_in s evs).
Proof.
  intros Q R. split; [now apply (drain_step body fuel fn q)|].
  destruct (createDeferredEffect_tracked body fn None (dequeued fn st))
    as (evs & T & D & _).
  pose proof (createDeferredEffect_control body fn None (dequeued fn st))
    as (_ & _ & C & _ & _ & _ & K).
  cbn zeta in C, K. exists evs.
  change (trace (dequeued fn st)) with (trace st) in T.
  change (runningEffects (dequeued fn st)) with (runningEffects st) in D.
  split; [exact T|]. split; [|split; [exact C|]].
  - intros prev [E|Hin]; [congruence|]. exfalso.
    specialize (K fn). rewrite fn_eqb_refl in K.
    unfold calls in K. rewrite T in K.
    change (trace (dequeued fn st)) with (trace st) in K.
    rewrite filter_app, length_app in K. cbn [filter is_call_of] in K.
    rewrite fn_eqb_refl in K. cbn [length] in K.
    assert (Hz : length (filter (is_call_of fn) evs) = 0) by lia.
    apply length_zero_iff_nil in Hz.
    assert (Hf : In (Called fn prev) (filter (is_call_of fn) evs)).
    { apply filter_In. split; [assumption|]. cbn. apply fn_eqb_refl. }
    rewrite Hz in Hf. exact Hf.
  - intros s. rewrite D. intuition.
Qed.

(** C4 (as amended): on its first run the effect is called synchronously,
    as the current effect; its reads are recorded in the registry only when
    a flush is in progress, as it is when the flush loop replays it.
    Outside a flush the first run only empties the set the effect had. *)
Theorem C4_first_run_records_reads_only_in_flush fn value st :
  exists evs,
    trace (state_of (createDeferredEffect body fn value st))
      = trace st ++ Called fn value :: evs /\
    calls fn (state_of (createDeferredEffect body fn value st)) = S (calls fn st) /\
    currentEffect (state_of (createDeferredEffect body fn value st)) = fn /\
    (runningEffects st = true ->
     forall s, In s (deps_of fn (state_of (createDeferredEffect body fn value st)))
               <-> read_in s evs) /\
    (runningEffects st = false ->
     effectDeps (state_of (createDeferredEffect body fn value st))
       = deps_clear fn (effectDeps st) /\
     deps_of fn (state_of (createDeferredEffect body fn value st)) = []).
Proof.
  destruct (createDeferredEffect_tracked body fn value st)
    as (evs & T & D & _ & U & _).
  pose proof (createDeferredEffect_control body fn value st)
    as (_ & _ & C & _ & _ & _ & K).
  cbn zeta in C, K. exists evs.
  split; [exact T|]. split; [|split; [exact C|split]].
  - rewrite K, fn_eqb_refl. reflexivity.
  - intros R s. rewrite D. intuition.
  - intros R. split; [now apply U|].
    destruct (deps_of fn (state_of (createDeferredEffect body fn value st)))
      as [|s l] eqn:E; [reflexivity|].
    destruct (D s) as [H _]. destruct (H (or_introl eq_refl)) as [H' _].
    congruence.
Qed.

End Registry.

(** C3 as worded fails: the second flush of the branching effect drops the
    dependency on [X] and calls [f] with [undefined] although [f] returned 7. *)
Lemma C3_counterexample :
  ~ replay_keeps_dependencies_and_value ScenarioBranch.branching Scenario.f 1
      ScenarioBranch.before_second_flush.
Proof.
  intros H.
  destruct (H ScenarioBranch.after_second_flush) as [Hincl _];
    [vm_compute; reflexivity|].
  specialize (Hincl ScenarioBranch.sig_X).
  vm_compute in Hincl. destruct Hincl as [E|[]]; [auto | discriminate].
Qed.

(** The state of that counterexample is reached from module load. *)
Lemma before_second_flush_reachable :
  reachable ScenarioBranch.branching ScenarioBranch.before_second_flush.
Proof.
  change ScenarioBranch.before_second_flush
    with (set ScenarioBranch.sig_A 1%Z
            (state_of (microtask ScenarioBranch.branching 1
               (set ScenarioBranch.sig_X 1%Z
                  (state_of (createDeferredEffect ScenarioBranch.branching
                     Scenario.f None
                     (snd (createSignal 0%Z
                        (snd (createSignal 0%Z initial_state)))))))))).
  repeat constructor.
Qed.

(** The theorem of C3 on the replay of the second flush. *)
Lemma C3_witness :
  effectQueue (set_runningEffects true ScenarioBranch.before_second_flush)
    = [Scenario.f] /\
  deps_of Scenario.f (set_runningEffects true ScenarioBranch.before_second_flush)
    = [ScenarioBranch.sig_A; ScenarioBranch.sig_X] /\
  exists evs,
    (forall s,
       In s (deps_of Scenario.f
               (state_of (createDeferredEffect ScenarioBranch.branching Scenario.f None
                  (dequeued Scenario.f
                     (set_runningEffects true ScenarioBranch.before_second_flush)))))
       <-> read_in s evs).
Proof.
  assert (Q : effectQueue (set_runningEffects true ScenarioBranch.before_second_flush)
              = [Scenario.f]) by (vm_compute; reflexivity).
  assert (R : runningEffects
                (set_runningEffects true ScenarioBranch.before_second_flush) = true)
    by (vm_compute; reflexivity).
  split; [exact Q|]. split; [vm_compute; reflexivity|].
  destruct (C3_replay_is_a_first_run ScenarioBranch.branching 0 Scenario.f []
              (set_runningEffects true ScenarioBranch.before_second_flush) Q R)
    as (_ & evs & _ & _ & _ & D).
  exists evs. exact D.
Defined.

(** C4 as worded fails: registered outside a flush, the effect reads [S]
    and the registry stays empty. *)
Lemma C4_counterexample :
  ~ first_run_records_reads Scenario.push_S Scenario.f None Scenario.with_S.
Proof.
  intros H.
  specialize (H (state_of (createDeferredEffect Scenario.push_S Scenario.f None
                             Scenario.with_S)) Scenario.sig_S).
  assert (E : In Scenario.sig_S
                (deps_of Scenario.f
                   (state_of (createDeferredEffect Scenario.push_S Scenario.f None
                                Scenario.with_S)))).
  { apply H; [vm_compute; reflexivity|]. vm_compute. right. now left. }
  vm_compute in E. exact E.
Qed.

Lemma exec_ReadSignal fn c s k st :
  exec fn c (ReadSignal s k) st =
  exec fn c (k (fst (get c s st))) (snd (get c s st)).
Proof. simpl. destruct (get c s st). reflexivity. Qed.

Lemma In_requeue_dependents fn s st :
  In s (deps_of fn st) -> In fn (effectQueue (requeue_dependents s st)).
Proof.
  unfold deps_of, requeue_dependents. cbn.
  destruct (deps_get fn (effectDeps st)) as [d|] eqn:G; [|intros []].
  intros H. apply In_scan. right. eapply is_dependent_deps_get; eassumption.
Qed.

(** A write to one's own recorded dependency during a flush puts the
    effect back into the queue, and nothing the code does later takes it
    out again. *)
Lemma writes_own_dependency_requeues fn c p st :
  runningEffects st = true ->
  writes_own_dependency fn c p st ->
  In fn (effectQueue (state_of (exec fn c p st))).
Proof.
  revert st. induction p as [v| |s k IH|s v k IH|v k IH]; intros st R H.
  - destruct H.
  - destruct H.
  - rewrite exec_ReadSignal. simpl in H. apply IH; [|exact H].
    destruct (same_control_get c s st) as (R' & _). congruence.
  - simpl in H. simpl exec. destruct H as [H|H].
    + destruct (same_control_exec fn c k (set s v st))
        as (_ & _ & _ & _ & _ & _ & Q).
      apply Q. unfold set. rewrite R. cbn [negb].
      destruct (same_control__set s v (requeue_dependents s st))
        as (_ & _ & _ & _ & _ & _ & Q').
      apply Q'. now apply In_requeue_dependents.
    + apply IH; [|exact H].
      destruct (same_control_set s v st) as (R' & _). congruence.
  - simpl in H. simpl exec. apply IH; [exact R | exact H].
Qed.

Lemma exec_never_throws fn c p st :
  never_throws p -> exists st', exec fn c p st = Normal st'.
Proof.
  revert st. induction p as [v| |s k IH|s v k IH|v k IH]; intros st H.
  - simpl. eauto.
  - destruct H.
  - rewrite exec_ReadSignal. apply IH. apply H.
  - simpl. apply IH. exact H.
  - simpl. apply IH. exact H.
Qed.

Section Divergence.

Variable body : EffectFunction -> option Z -> Code.
Variable fn : EffectFunction.

Hypothesis self_write :
  forall st, runningEffects st = true ->
    writes_own_dependency fn (length (computations st)) (body fn None)
      (about_to_call fn None st).

Lemma replay_requeues st :
  runningEffects st = true ->
  In fn (effectQueue (state_of (createDeferredEffect body fn None st))).
Proof.
  intros R. rewrite createDeferredEffect_eq.
  pose proof (writes_own_dependency_requeues fn (length (computations st))
                (body fn None) (about_to_call fn None st) R (self_write st R)) as H.
  destruct (exec fn (length (computations st)) (body fn None)
              (about_to_call fn None st)) as [s|s|s]; cbn [state_of] in *;
    [|exact H|exact H].
  destruct (same_control_onCleanup fn s) as (_ & _ & _ & Q & _).
  now rewrite Q.
Qed.

(** While the effect is pending, an iteration leaves it pending. *)
Lemma drain_keeps_pending fuel st :
  runningEffects st = true -> In fn (effectQueue st) ->
  match drain body fuel st with
  | Normal _ => False
  | Threw _ => True
  | OutOfFuel st' => In fn (effectQueue st')
  end.
Proof.
  revert st. induction fuel as [|fuel IH]; intros st R Hin.
  - simpl. destruct (effectQueue st) eqn:Q; [destruct Hin | rewrite Q; exact Hin].
  - destruct (effectQueue st) as [|g q] eqn:Q; [destruct Hin|].
    rewrite (drain_step body fuel g q st Q).
    pose proof (createDeferredEffect_control body g None (dequeued g st))
      as (R' & _ & _ & _ & _ & Qi & _).
    cbn zeta in R', Qi.
    change (runningEffects (dequeued g st)) with (runningEffects st) in R'.
    change (effectQueue (dequeued g st)) with (queue_delete g (effectQueue st)) in Qi.
    assert (Hin' : In fn (effectQueue
                     (state_of (createDeferredEffect body g None (dequeued g st))))).
    { destruct (fn_eq_dec fn g) as [<- |Hne].
      - apply replay_requeues. exact R.
      - apply Qi. apply In_queue_delete. split; [exact Hne|].
        rewrite Q. exact Hin. }
    destruct (createDeferredEffect body g None (dequeued g st)) as [s|s|s] eqn:E;
      cbn [state_of] in *.
    + apply IH; [congruence | exact Hin'].
    + exact I.
    + exact Hin'.
Qed.

Lemma drain_never_throws fuel st :
  (forall g, never_throws (body g None)) ->
  forall st', drain body fuel st <> Threw st'.
Proof.
  intros Hnt. revert st. induction fuel as [|fuel IH]; intros st st'.
  - simpl. destruct (effectQueue st); discriminate.
  - destruct (effectQueue st) as [|g q] eqn:Q; [simpl; rewrite Q; discriminate|].
    rewrite (drain_step body fuel g q st Q), createDeferredEffect_eq.
    destruct (exec_never_throws g (length (computations (dequeued g st)))
                (body g None) (about_to_call g None (dequeued g st)) (Hnt g))
      as [s ->].
    apply IH.
Qed.

End Divergence.

(** The incrementing effect reads its signal before it writes it. *)
Lemma bump_writes_own_dependency st :
  runningEffects st = true ->
  writes_own_dependency Scenario.f (length (computations st))
    (ScenarioLoop.bump Scenario.f None) (about_to_call Scenario.f None st).
Proof.
  intros R. unfold ScenarioLoop.bump. cbn [writes_own_dependency]. left.
  destruct (tracked_get (length (computations st)) 0
              (about_to_call Scenario.f None st)) as (_ & _ & _ & D & _).
  apply D. right. split; [exact R|]. split; [reflexivity | now left].
Qed.

(** ** Cleanup *)

Lemma effectQueue_get c s st : effectQueue (snd (get c s st)) = effectQueue st.
Proof. unfold get, _get. cbn. destruct (runningEffects st); reflexivity. Qed.





Section Cleanup.

Variable body : EffectFunction -> option Z -> Code.




End Cleanup.





(** ** Scheduling *)

(** [effectQueue.add(fn)] at line 94 leaves a queued effect where it is. *)
Lemma wrapper_subsequent_keeps_position fn st :
  In fn (effectQueue st) ->
  effectQueue (wrapper_subsequent fn st) = effectQueue st.
Proof.
  intros H. apply queue_has_In in H. unfold wrapper_subsequent. cbn.
  assert (E : queue_add fn (effectQueue st) = effectQueue st)
    by (unfold queue_add; now rewrite H).
  destruct (runningEffects st); cbn; [exact E|].
  destruct (effectTaskIsScheduled st); cbn; exact E.
Qed.

(** A microtask is queued only when no flush runs and none is scheduled,
    with the scope that is current at that moment. *)
Lemma wrapper_subsequent_schedule fn st :
  microtasks (wrapper_subsequent fn st) =
    (if runningEffects st || effectTaskIsScheduled st then microtasks st
     else microtasks st ++ [owner st]) /\
  effectTaskIsScheduled (wrapper_subsequent fn st) =
    (if runningEffects st then effectTaskIsScheduled st else true) /\
  runningEffects (wrapper_subsequent fn st) = runningEffects st.
Proof.
  unfold wrapper_subsequent. cbn.
  destruct (runningEffects st) eqn:R; cbn; [rewrite ?R; auto|].
  destruct (effectTaskIsScheduled st) eqn:T; cbn; rewrite ?R, ?T; auto.
Qed.

Lemma single_flight_wrapper_subsequent fn st :
  single_flight st -> single_flight (wrapper_subsequent fn st).
Proof.
  unfold single_flight.
  destruct (wrapper_subsequent_schedule fn st) as (M & T & _).
  rewrite M, T. intros H.
  destruct (runningEffects st); cbn; [exact H|].
  destruct (effectTaskIsScheduled st) eqn:E; cbn.
  - destruct H as [H|(H & _)]; [now left | right; auto].
  - destruct H as [H|(_ & H)]; [|discriminate].
    right. split; [|reflexivity]. exists (owner st). now rewrite H.
Qed.

Lemma single_flight_rerun c st : single_flight st -> single_flight (rerun c st).
Proof.
  unfold rerun. destruct (nth_error (computations st) c) as [x|]; [|auto].
  destruct (c_initial x); [auto|]. intros H.
  apply (single_flight_wrapper_subsequent (c_fn x)
           (set_owner (c_owner x)
              (set_computations
                 (update_computation c unsubscribe (computations st)) st))) in H.
  exact H.
Qed.

Lemma single_flight_set s v st : single_flight st -> single_flight (set s v st).
Proof.
  assert (B : forall st0, single_flight st0 -> single_flight (_set s v st0)).
  { intros st0 H. unfold _set. destruct (Z.eqb (read_cell s st0) v); [exact H|].
    apply notify_invariant; [intros c s0; apply single_flight_rerun | exact H]. }
  intros H. unfold set. destruct (runningEffects st); cbn; apply B; exact H.
Qed.

Lemma single_flight_exec fn c p st :
  single_flight st -> single_flight (state_of (exec fn c p st)).
Proof.
  revert st. induction p as [v| |s k IH|s v k IH|v k IH]; intros st H.
  - exact H.
  - exact H.
  - rewrite exec_ReadSignal. apply IH. unfold get, _get. cbn.
    destruct (runningEffects st); exact H.
  - simpl. apply IH. now apply single_flight_set.
  - simpl. apply IH. exact H.
Qed.

Section SingleFlight.

Variable body : EffectFunction -> option Z -> Code.

Lemma single_flight_createDeferredEffect fn value st :
  single_flight st ->
  single_flight (state_of (createDeferredEffect body fn value st)).
Proof.
  intros H. rewrite createDeferredEffect_eq.
  assert (H0 : single_flight (about_to_call fn value st)) by exact H.
  apply (single_flight_exec fn (length (computations st)) (body fn value)) in H0.
  destruct (exec fn (length (computations st)) (body fn value)
              (about_to_call fn value st)) as [s|s|s]; cbn [state_of] in *;
    try exact H0.
  unfold single_flight, onCleanup. destruct (owner s); exact H0.
Qed.

Lemma drain_flags fuel st :
  runningEffects st = true ->
  runningEffects (state_of (drain body fuel st)) = true /\
  effectTaskIsScheduled (state_of (drain body fuel st)) = effectTaskIsScheduled st /\
  microtasks (state_of (drain body fuel st)) = microtasks st.
Proof.
  revert st. induction fuel as [|fuel IH]; intros st R.
  - simpl. destruct (effectQueue st); auto.
  - destruct (effectQueue st) as [|g q] eqn:Q; [simpl; rewrite Q; auto|].
    rewrite (drain_step body fuel g q st Q).
    pose proof (createDeferredEffect_control body g None (dequeued g st))
      as (R' & _ & _ & F & _).
    cbn zeta in R', F.
    change (runningEffects (dequeued g st)) with (runningEffects st) in *.
    change (effectTaskIsScheduled (dequeued g st))
      with (effectTaskIsScheduled st) in *.
    change (microtasks (dequeued g st)) with (microtasks st) in *.
    destruct (F R) as (F1 & F2).
    destruct (createDeferredEffect body g None (dequeued g st)) as [s|s|s];
      cbn [state_of] in *; try (repeat split; congruence).
    destruct (IH s (eq_trans R' R)) as (A & B & C).
    repeat split; congruence.
Qed.

Lemma single_flight_microtask fuel st :
  single_flight st -> single_flight (state_of (microtask body fuel st)).
Proof.
  intros H.
  assert (R : forall s, microtasks s = [] ->
              microtasks (state_of (runEffects body fuel s)) = []).
  { intros s Hs. unfold runEffects.
    destruct (drain_flags fuel (set_runningEffects true s) eq_refl) as (_ & _ & M).
    destruct (drain body fuel (set_runningEffects true s)) as [x|x|x];
      cbn [state_of] in *; cbn in *; congruence. }
  unfold microtask. destruct (microtasks st) as [|w rest] eqn:E; [exact H|].
  assert (Hrest : rest = []).
  { destruct H as [H|((o & H) & _)]; rewrite E in H; [discriminate|].
    now injection H. }
  subst rest. left. destruct w as [o|].
  - unfold runWithOwner.
    pose proof (R (set_owner (Some o) (set_microtasks [] st)) eq_refl) as M.
    destruct (runEffects body fuel (set_owner (Some o) (set_microtasks [] st)))
      as [x|x|x]; cbn [state_of] in *; exact M.
  - apply (R (set_microtasks [] st)). reflexivity.
Qed.

(** At most one flush microtask is pending in every reachable state. *)
Lemma reachable_single_flight st :
  reachable body st -> single_flight st /\ length (microtasks st) <= 1.
Proof.
  intros H.
  assert (S : single_flight st).
  { induction H as [|st v _ IH|st fn value _ IH|st o fn value _ IH
                    |st s v _ IH|st fuel _ IH|st o _ IH].
    - now left.
    - exact IH.
    - now apply single_flight_createDeferredEffect.
    - unfold runWithOwner.
      assert (H0 : single_flight (set_owner (Some o) st)) by exact IH.
      apply (single_flight_createDeferredEffect fn value) in H0.
      destruct (createDeferredEffect body fn value (set_owner (Some o) st))
        as [x|x|x]; cbn [state_of] in *; exact H0.
    - now apply single_flight_set.
    - now apply single_flight_microtask.
    - unfold dispose.
      assert (G : forall (l : list (Owner * EffectFunction)) s,
                microtasks (run_cleanups l s) = microtasks s /\
                effectTaskIsScheduled (run_cleanups l s) = effectTaskIsScheduled s).
      { unfold run_cleanups. induction l as [|e l IHl]; intros s; simpl; [auto|].
        destruct (IHl (run_cleanup (snd e) s)) as (A & B). auto. }
      destruct (G (filter (attached_to o) (cleanups st)) st) as (A & B).
      unfold single_flight. cbn. rewrite A, B. exact IH. }
  split; [exact S|].
  destruct S as [-> |((o & ->) & _)]; simpl; lia.
Qed.

End SingleFlight.

(** C6: [f] is registered with 0 (it reads [X]) and with 1 (it reads [Y]),
    [g] reads [Z].  After writes to [X] and [Z] the queue is [f; g] and one
    microtask is pending.  A write to [Y] invokes the second base effect of
    [f] again: the claim, like the comment at line 94, has [f] moved to the
    end, but [effectQueue.add] leaves the queue as it is; the delete-then-add
    of [set] would give [g; f].  No second microtask is queued. *)
Theorem C6_queued_effect_keeps_its_position :
  effectQueue ScenarioTwice.two_pending = [Scenario.f; Scenario.g] /\
  observers ScenarioTwice.sig_Y ScenarioTwice.two_pending = [1] /\
  effectQueue (set ScenarioTwice.sig_Y 5%Z ScenarioTwice.two_pending)
    = [Scenario.f; Scenario.g] /\
  effectQueue (wrapper_subsequent Scenario.f ScenarioTwice.two_pending)
    = [Scenario.f; Scenario.g] /\
  move_to_end Scenario.f (effectQueue ScenarioTwice.two_pending)
    = [Scenario.g; Scenario.f] /\
  microtasks (set ScenarioTwice.sig_Y 5%Z ScenarioTwice.two_pending) = [None].
Proof. repeat split; vm_compute; reflexivity. Qed.

(** The state in which C6 fails is reached from module load. *)
Lemma two_pending_reachable :
  reachable ScenarioTwice.reads_by_value ScenarioTwice.two_pending.
Proof.
  change ScenarioTwice.two_pending
    with (set ScenarioTwice.sig_Z 5%Z
            (set ScenarioTwice.sig_X 5%Z
               (state_of (createDeferredEffect ScenarioTwice.reads_by_value
                  Scenario.g None
                  (state_of (createDeferredEffect ScenarioTwice.reads_by_value
                     Scenario.f (Some 1%Z)
                     (state_of (createDeferredEffect ScenarioTwice.reads_by_value
                        Scenario.f (Some 0%Z)
                        (snd (createSignal 0%Z
                           (snd (createSignal 0%Z
                              (snd (createSignal 0%Z initial_state)))))))))))))).
  repeat constructor.
Qed.

(** * Further properties of the code *)

(** ** Tracked signals *)

Lemma fst_get c s st : fst (get c s st) = read_cell s st.
Proof. unfold get, _get. cbn. destruct (runningEffects st); reflexivity. Qed.

Lemma nth_write_cell s' s v l :
  nth s' (write_cell s v l) 0%Z =
  if Nat.eqb s' s && Nat.ltb s (length l) then v else nth s' l 0%Z.
Proof.
  revert s s'. induction l as [|a l IH]; intros s s'.
  - replace (Nat.ltb s (length (@nil Z))) with false
      by (symmetry; apply Nat.ltb_ge; simpl; lia).
    rewrite andb_false_r. destruct s, s'; reflexivity.
  - destruct s as [|s], s' as [|s']; try reflexivity.
    simpl nth. simpl write_cell. simpl nth. rewrite IH. reflexivity.
Qed.

Lemma cells_rerun c st : cells (rerun c st) = cells st.
Proof.
  unfold rerun. destruct (nth_error (computations st) c) as [x|]; [|reflexivity].
  destruct (c_initial x); [reflexivity|]. unfold wrapper_subsequent. cbn.
  destruct (runningEffects st); cbn; [reflexivity|].
  destruct (effectTaskIsScheduled st); reflexivity.
Qed.

Lemma cells_notify cs st : cells (notify cs st) = cells st.
Proof.
  apply (notify_invariant (fun s => cells s = cells st)); [|reflexivity].
  intros c s H. now rewrite cells_rerun.
Qed.

Lemma read_cell__set s' s v st :
  read_cell s' (_set s v st) =
  if Nat.eqb s' s && Nat.ltb s (length (cells st)) then v else read_cell s' st.
Proof.
  unfold _set, read_cell. destruct (Z.eqb (nth s (cells st) 0%Z) v) eqn:E.
  - apply Z.eqb_eq in E.
    destruct (Nat.eqb s' s) eqn:N; [|reflexivity].
    apply Nat.eqb_eq in N. subst s'.
    destruct (Nat.ltb s (length (cells st))); simpl; congruence.
  - rewrite cells_notify. cbn. apply nth_write_cell.
Qed.

Lemma read_cell_set s' s v st :
  read_cell s' (set s v st) =
  if Nat.eqb s' s && Nat.ltb s (length (cells st)) then v else read_cell s' st.
Proof.
  unfold set. destruct (runningEffects st); cbn; [|apply read_cell__set].
  apply (read_cell__set s' s v (requeue_dependents s st)).
Qed.

(** X1: a tracked read returns the value written last, inside and outside
    a flush and whoever reads; a write leaves every other signal as it
    was; a new signal reads as its initial value and leaves the older
    ones alone. *)
Theorem X1_read_returns_last_write c s v st :
  s < length (cells st) ->
  fst (get c s (set s v st)) = v /\
  (forall c' s', s' <> s ->
     fst (get c' s' (set s v st)) = fst (get c' s' st)) /\
  (forall c' init,
     fst (get c' (fst (createSignal init st)) (snd (createSignal init st))) = init /\
     fst (get c' s (snd (createSignal init st))) = fst (get c' s st)).
Proof.
  intros Hs. rewrite fst_get, read_cell_set, Nat.eqb_refl.
  apply Nat.ltb_lt in Hs. rewrite Hs. split; [reflexivity|]. split.
  - intros c' s' Hne. rewrite !fst_get, read_cell_set.
    apply Nat.eqb_neq in Hne. now rewrite Hne.
  - intros c' init. rewrite !fst_get. unfold createSignal, read_cell. cbn.
    apply Nat.ltb_lt in Hs. split.
    + rewrite app_nth2 by lia. now rewrite Nat.sub_diag.
    + now rewrite app_nth1.
Qed.

Lemma X1_witness :
  0 < length (cells Scenario.with_S) /\
  fst (get 0 0 (set 0 8%Z Scenario.with_S)) = 8%Z.
Proof.
  assert (H : 0 < length (cells Scenario.with_S)) by (vm_compute; lia).
  split; [exact H|].
  destruct (X1_read_returns_last_write 0 0 8%Z Scenario.with_S H) as (E & _).
  exact E.
Defined.

(** X2: a tracked write never calls an effect function, whether a flush
    is in progress or not: the trace, the user's list, the registry, the
    current effect, the cleanup callbacks and [runningEffects] are what
    they were.  The write only updates the cell, queues or moves effects
    and may schedule the flush. *)
Theorem X2_write_defers_effects s v st :
  trace (set s v st) = trace st /\
  (forall g, calls g (set s v st) = calls g st) /\
  out (set s v st) = out st /\
  effectDeps (set s v st) = effectDeps st /\
  currentEffect (set s v st) = currentEffect st /\
  cleanups (set s v st) = cleanups st /\
  runningEffects (set s v st) = runningEffects st /\
  map c_fn (computations (set s v st)) = map c_fn (computations st).
Proof.
  destruct (same_log_set s v st) as (T & O & D).
  destruct (same_control_set s v st) as (R & _ & C & E & _ & L & _).
  repeat split; try assumption.
  intros g. unfold calls. now rewrite T.
Qed.

Lemma rerun_appends c st :
  runningEffects st = false ->
  exists added,
    effectQueue (rerun c st) = effectQueue st ++ added /\
    forall g, In g added -> ~ In g (effectQueue st).
Proof.
  intros R. unfold rerun.
  destruct (nth_error (computations st) c) as [x|];
    [|exists []; rewrite app_nil_r; split; [reflexivity | intros g []]].
  destruct (c_initial x);
    [exists []; rewrite app_nil_r; split; [reflexivity | intros g []]|].
  assert (H : exists added,
            queue_add (c_fn x) (effectQueue st) = effectQueue st ++ added /\
            forall g, In g added -> ~ In g (effectQueue st)).
  { unfold queue_add. destruct (queue_has (c_fn x) (effectQueue st)) eqn:E.
    - exists []. rewrite app_nil_r. split; [reflexivity | intros g []].
    - exists [c_fn x]. split; [reflexivity|]. intros g [<- |[]] Hin.
      apply queue_has_In in Hin. congruence. }
  unfold wrapper_subsequent. cbn. rewrite R. cbn.
  destruct (effectTaskIsScheduled st); cbn; exact H.
Qed.

Lemma notify_appends cs st :
  runningEffects st = false ->
  exists added,
    effectQueue (notify cs st) = effectQueue st ++ added /\
    forall g, In g added -> ~ In g (effectQueue st).
Proof.
  unfold notify. revert st. induction cs as [|c cs IH]; intros st R; simpl.
  - exists []. rewrite app_nil_r. split; [reflexivity | intros g []].
  - destruct (rerun_appends c st R) as (a1 & E1 & N1).
    assert (R' : runningEffects (rerun c st) = false).
    { destruct (same_control_rerun c st) as (H & _). congruence. }
    destruct (IH (rerun c st) R') as (a2 & E2 & N2).
    exists (a1 ++ a2). rewrite E2, E1, app_assoc. split; [reflexivity|].
    intros g Hg Hin. apply in_app_or in Hg. destruct Hg as [Hg|Hg].
    + now apply (N1 g).
    + apply (N2 g Hg). rewrite E1. apply in_or_app. now left.
Qed.

(** X3: outside a flush a tracked write never reorders or drops pending
    effects.  The queue it leaves is the old queue followed by effects
    that were not pending and of which a base effect observes the written
    signal. *)
Theorem X3_write_outside_flush_appends s v st :
  runningEffects st = false ->
  exists added,
    effectQueue (set s v st) = effectQueue st ++ added /\
    forall g, In g added -> ~ In g (effectQueue st) /\ observed_by s g st.
Proof.
  intros R.
  assert (H : exists added,
            effectQueue (set s v st) = effectQueue st ++ added /\
            forall g, In g added -> ~ In g (effectQueue st)).
  { unfold set. rewrite R. cbn [negb]. unfold _set.
    destruct (Z.eqb (read_cell s st) v).
    - exists []. rewrite app_nil_r. split; [reflexivity | intros g []].
    - apply (notify_appends _ (set_cells (write_cell s v (cells st)) st)).
      exact R. }
  destruct H as (added & E & N). exists added. split; [exact E|].
  intros g Hg. split; [now apply N|].
  assert (Hin : In g (effectQueue (set s v st)))
    by (rewrite E; apply in_or_app; now right).
  apply queue_set in Hin. destruct Hin as [Hin|[(R' & _)|Hin]].
  - now destruct (N g Hg).
  - congruence.
  - exact Hin.
Qed.

Lemma X3_witness :
  runningEffects ScenarioTwice.two_pending = false /\
  exists added,
    effectQueue (set ScenarioTwice.sig_Y 5%Z ScenarioTwice.two_pending)
      = effectQueue ScenarioTwice.two_pending ++ added.
Proof.
  assert (R : runningEffects ScenarioTwice.two_pending = false) by reflexivity.
  split; [exact R|].
  destruct (X3_write_outside_flush_appends ScenarioTwice.sig_Y 5%Z
              ScenarioTwice.two_pending R) as (added & E & _).
  exists added. exact E.
Defined.

(** ** The flush *)

Lemma drain_normal_empty body fuel st st' :
  drain body fuel st = Normal st' -> effectQueue st' = [].
Proof.
  revert st. induction fuel as [|fuel IH]; intros st H.
  - simpl in H. destruct (effectQueue st) eqn:Q; [|discriminate].
    injection H as <-. exact Q.
  - destruct (effectQueue st) as [|g q] eqn:Q.
    + simpl in H. rewrite Q in H. injection H as <-. exact Q.
    + rewrite (drain_step body fuel g q st Q) in H.
      destruct (createDeferredEffect body g None (dequeued g st)) as [s|s|s];
        try discriminate.
      now apply (IH s).
Qed.

Lemma runEffects_returns_idle body fuel st st' :
  runEffects body fuel st = Normal st' ->
  effectQueue st' = [] /\
  runningEffects st' = false /\
  effectTaskIsScheduled st' = false /\
  microtasks st' = microtasks st /\
  owner st' = owner st.
Proof.
  unfold runEffects. intros H.
  destruct (drain body fuel (set_runningEffects true st)) as [s|s|s] eqn:D;
    try discriminate.
  injection H as <-. cbn.
  pose proof (drain_normal_empty body fuel _ _ D) as Q.
  destruct (drain_flags body fuel (set_runningEffects true st) eq_refl)
    as (_ & _ & M).
  rewrite D in M. cbn in M.
  assert (O : forall n s0, owner (state_of (drain body n s0)) = owner s0).
  { induction n as [|n IH]; intros s0.
    - simpl. destruct (effectQueue s0); reflexivity.
    - destruct (effectQueue s0) as [|g q] eqn:Q0; [simpl; now rewrite Q0|].
      rewrite (drain_step body n g q s0 Q0).
      pose proof (createDeferredEffect_control body g None (dequeued g s0))
        as (_ & O1 & _).
      cbn zeta in O1. change (owner (dequeued g s0)) with (owner s0) in O1.
      destruct (createDeferredEffect body g None (dequeued g s0)) as [x|x|x];
        cbn [state_of] in *; try exact O1.
      rewrite IH. exact O1. }
  specialize (O fuel (set_runningEffects true st)). rewrite D in O. cbn in O.
  repeat split; assumption.
Qed.

(** X6: when [runEffects] returns, the scheduler is idle: the queue is
    empty, [runningEffects] and [effectTaskIsScheduled] are false; the
    pending microtasks and the ownership scope are those it started with. *)
Theorem X6_returned_flush_is_idle body fuel st st' :
  runEffects body fuel st = Normal st' ->
  effectQueue st' = [] /\
  runningEffects st' = false /\
  effectTaskIsScheduled st' = false /\
  microtasks st' = microtasks st /\
  owner st' = owner st.
Proof. apply runEffects_returns_idle. Qed.

Lemma X6_witness :
  runEffects Scenario.push_S 1 ScenarioMore.scheduled
    = Normal (state_of (runEffects Scenario.push_S 1 ScenarioMore.scheduled)) /\
  effectQueue (state_of (runEffects Scenario.push_S 1 ScenarioMore.scheduled)) = [] /\
  effectTaskIsScheduled
    (state_of (runEffects Scenario.push_S 1 ScenarioMore.scheduled)) = false.
Proof.
  assert (E : runEffects Scenario.push_S 1 ScenarioMore.scheduled
              = Normal (state_of (runEffects Scenario.push_S 1 ScenarioMore.scheduled)))
    by (vm_compute; reflexivity).
  split; [exact E|].
  destruct (X6_returned_flush_is_idle Scenario.push_S 1 ScenarioMore.scheduled _ E)
    as (Q & _ & T & _).
  split; [exact Q | exact T].
Defined.

(** X11: when the first run throws, [createDeferredEffect] leaves through
    the exception after the base effect has been created and [fn] has
    been called as the current effect, and before [onCleanup]: no cleanup
    callback is registered, even within an ownership scope. *)
Theorem X11_throwing_first_run_registers_no_cleanup body fn value st st' :
  createDeferredEffect body fn value st = Threw st' ->
  cleanups st' = cleanups st /\
  subscriptions fn st' = S (subscriptions fn st) /\
  calls fn st' = S (calls fn st) /\
  currentEffect st' = fn /\
  owner st' = owner st /\
  runningEffects st' = runningEffects st.
Proof.
  intros E.
  pose proof (createDeferredEffect_cleanups body fn value st) as C.
  pose proof (createDeferredEffect_control body fn value st)
    as (R & O & Cu & _ & L & _ & K).
  cbn zeta in *. rewrite E in *. cbn [state_of] in *.
  split; [rewrite C; apply app_nil_r|].
  split; [|split; [|repeat split; assumption]].
  - unfold subscriptions. rewrite L, filter_app, length_app. cbn [filter].
    rewrite fn_eqb_refl. cbn [length]. apply Nat.add_1_r.
  - rewrite K, fn_eqb_refl. reflexivity.
Qed.

Lemma X11_witness :
  createDeferredEffect ScenarioThrow.failing Scenario.f None
    (set_owner (Some 7) ScenarioThrow.pending)
  = Threw (state_of (createDeferredEffect ScenarioThrow.failing Scenario.f None
                       (set_owner (Some 7) ScenarioThrow.pending))) /\
  cleanups (state_of (createDeferredEffect ScenarioThrow.failing Scenario.f None
                        (set_owner (Some 7) ScenarioThrow.pending))) = [].
Proof.
  assert (E : createDeferredEffect ScenarioThrow.failing Scenario.f None
                (set_owner (Some 7) ScenarioThrow.pending)
              = Threw (state_of (createDeferredEffect ScenarioThrow.failing
                                   Scenario.f None
                                   (set_owner (Some 7) ScenarioThrow.pending))))
    by (vm_compute; reflexivity).
  split; [exact E|].
  destruct (X11_throwing_first_run_registers_no_cleanup _ _ _ _ _ E) as (C & _).
  exact C.
Defined.

Lemma called_app a b : called (a ++ b) = called a ++ called b.
Proof.
  induction a as [|e a IH]; simpl; [reflexivity|].
  destruct e; simpl; now rewrite IH.
Qed.

Lemma called_exec fn c p st :
  called (trace (state_of (exec fn c p st))) = called (trace st).
Proof.
  revert st. induction p as [v| |s k IH|s v k IH|v k IH]; intros st.
  - simpl. rewrite called_app. simpl. apply app_nil_r.
  - reflexivity.
  - rewrite exec_ReadSignal, IH. unfold get, _get. cbn.
    destruct (runningEffects st); cbn; rewrite called_app; simpl;
      apply app_nil_r.
  - simpl. rewrite IH. destruct (same_log_set s v st) as (T & _). now rewrite T.
  - simpl. rewrite IH. reflexivity.
Qed.

Lemma exec_only_reads fn c p st :
  only_reads p ->
  exists st', exec fn c p st = Normal st' /\ effectQueue st' = effectQueue st.
Proof.
  revert st. induction p as [v| |s k IH|s v k IH|v k IH]; intros st H.
  - simpl. eexists. split; reflexivity.
  - destruct H.
  - rewrite exec_ReadSignal.
    destruct (IH (fst (get c s st)) (snd (get c s st)) (H _)) as (st' & E & Q).
    exists st'. split; [exact E|]. now rewrite Q, effectQueue_get.
  - destruct H.
  - simpl. destruct (IH (set_out (out st ++ [v]) st) H) as (st' & E & Q).
    exists st'. split; [exact E | exact Q].
Qed.

Lemma queue_delete_head g q :
  NoDup (g :: q) -> queue_delete g (g :: q) = q.
Proof.
  intros H. inversion H as [|? ? Hg Hq]; subst.
  unfold queue_delete. simpl. rewrite fn_eqb_refl. simpl.
  clear H Hq. induction q as [|a q IH]; simpl; [reflexivity|].
  destruct (fn_eqb g a) eqn:E.
  - apply fn_eqb_eq in E. subst a. exfalso. apply Hg. now left.
  - simpl. f_equal. apply IH. intros Hin. apply Hg. now right.
Qed.

Section FlushFacts.

Variable body : EffectFunction -> option Z -> Code.

Lemma called_createDeferredEffect fn value st :
  called (trace (state_of (createDeferredEffect body fn value st)))
  = called (trace st) ++ [fn].
Proof.
  rewrite createDeferredEffect_eq.
  pose proof (called_exec fn (length (computations st)) (body fn value)
                (about_to_call fn value st)) as H.
  assert (A : called (trace (about_to_call fn value st)) = called (trace st) ++ [fn]).
  { unfold about_to_call. cbn. now rewrite called_app. }
  rewrite A in H.
  destruct (exec fn (length (computations st)) (body fn value)
              (about_to_call fn value st)) as [s|s|s]; cbn [state_of] in *;
    try exact H.
  destruct (same_control_onCleanup fn s) as (_ & _ & _ & _ & _ & T & _).
  now rewrite T.
Qed.

Lemma createDeferredEffect_only_reads fn value st :
  only_reads (body fn value) ->
  exists st', createDeferredEffect body fn value st = Normal st' /\
              effectQueue st' = effectQueue st.
Proof.
  intros H. rewrite createDeferredEffect_eq.
  destruct (exec_only_reads fn (length (computations st)) (body fn value)
              (about_to_call fn value st) H) as (s & E & Q).
  rewrite E. exists (onCleanup fn s). split; [reflexivity|].
  destruct (same_control_onCleanup fn s) as (_ & _ & _ & A & _).
  rewrite A, Q. reflexivity.
Qed.

Lemma drain_only_reads fuel st :
  NoDup (effectQueue st) ->
  (forall g, In g (effectQueue st) -> only_reads (body g None)) ->
  length (effectQueue st) <= fuel ->
  exists st', drain body fuel st = Normal st' /\
              called (trace st') = called (trace st) ++ effectQueue st.
Proof.
  revert st. induction fuel as [|fuel IH]; intros st Hnd Hro Hlen.
  - destruct (effectQueue st) as [|g q] eqn:Q; [|simpl in Hlen; lia].
    exists st. simpl. rewrite Q, app_nil_r. auto.
  - destruct (effectQueue st) as [|g q] eqn:Q.
    + exists st. simpl. rewrite Q, app_nil_r. auto.
    + rewrite (drain_step body fuel g q st Q).
      destruct (createDeferredEffect_only_reads g None (dequeued g st)
                  (Hro g (or_introl eq_refl))) as (s & E & Qs).
      pose proof (called_createDeferredEffect g None (dequeued g st)) as T.
      rewrite E in *. cbn [state_of] in T.
      change (trace (dequeued g st)) with (trace st) in T.
      assert (Qs' : effectQueue s = q).
      { rewrite Qs. cbn. rewrite Q. now apply queue_delete_head. }
      assert (Hq : NoDup q) by (inversion Hnd; assumption).
      destruct (IH s) as (st' & D & C).
      * now rewrite Qs'.
      * intros h Hh. rewrite Qs' in Hh. apply Hro. now right.
      * rewrite Qs'. simpl in Hlen. lia.
      * exists st'. split; [exact D|].
        rewrite C, T, Qs', <- app_assoc. reflexivity.
Qed.

Lemma runEffects_only_reads fuel st :
  NoDup (effectQueue st) ->
  (forall g, In g (effectQueue st) -> only_reads (body g None)) ->
  length (effectQueue st) <= fuel ->
  exists st',
    runEffects body fuel st = Normal st' /\
    called (trace st') = called (trace st) ++ effectQueue st /\
    effectQueue st' = [].
Proof.
  intros Hnd Hro Hlen.
  destruct (drain_only_reads fuel (set_runningEffects true st) Hnd Hro Hlen)
    as (s & D & C).
  unfold runEffects. rewrite D. eexists. split; [reflexivity|].
  split; [exact C|]. cbn. now apply (drain_normal_empty body fuel _ _ D).
Qed.

(** X7: when the pending effects only read signals, the flush ends after
    one replay of each: [runEffects] returns once it has called exactly
    the effects of the queue, each once, in the order of the queue. *)
Theorem X7_flush_of_readers_replays_queue_once fuel st :
  NoDup (effectQueue st) ->
  (forall g, In g (effectQueue st) -> only_reads (body g None)) ->
  length (effectQueue st) <= fuel ->
  exists st',
    runEffects body fuel st = Normal st' /\
    called (trace st') = called (trace st) ++ effectQueue st /\
    effectQueue st' = [].
Proof. apply runEffects_only_reads. Qed.

Lemma drain_cleanups fuel st :
  owner (state_of (drain body fuel st)) = owner st /\
  exists l,
    cleanups (state_of (drain body fuel st)) = cleanups st ++ l /\
    forall e, In e l -> owner st = Some (fst e).
Proof.
  revert st. induction fuel as [|fuel IH]; intros st.
  - simpl. destruct (effectQueue st) as [|g q]; (split; [reflexivity|]);
      exists []; rewrite app_nil_r; (split; [reflexivity | intros e []]).
  - destruct (effectQueue st) as [|g q] eqn:Q.
    + simpl. rewrite Q. split; [reflexivity|].
      exists []. rewrite app_nil_r. split; [reflexivity | intros e []].
    + rewrite (drain_step body fuel g q st Q).
      pose proof (createDeferredEffect_cleanups body g None (dequeued g st)) as C.
      pose proof (createDeferredEffect_control body g None (dequeued g st))
        as (_ & O & _).
      cbn zeta in O.
      change (owner (dequeued g st)) with (owner st) in *.
      change (cleanups (dequeued g st)) with (cleanups st) in *.
      assert (Hl : forall e,
                In e (match createDeferredEffect body g None (dequeued g st),
                            owner st with
                      | Normal _, Some o => [(o, g)]
                      | _, _ => []
                      end) -> owner st = Some (fst e)).
      { intros e. destruct (createDeferredEffect body g None (dequeued g st));
          destruct (owner st); simpl; intros H; try contradiction.
        destruct H as [<- |[]]. reflexivity. }
      destruct (createDeferredEffect body g None (dequeued g st)) as [s|s|s] eqn:E;
        cbn [state_of] in *.
      * destruct (IH s) as (O' & l & C' & Hl').
        split; [congruence|].
        eexists. rewrite C', C, <- app_assoc. split; [reflexivity|].
        intros e He. apply in_app_or in He. destruct He as [He|He].
        -- now apply Hl.
        -- rewrite <- O. now apply Hl'.
      * split; [exact O|]. eexists. split; [exact C | exact Hl].
      * split; [exact O|]. eexists. split; [exact C | exact Hl].
Qed.

(** X8: the host runs a microtask outside any ownership scope.  Every
    cleanup callback registered during the flush is then attached to the
    scope that was captured when the flush was scheduled, whatever scope
    the replayed effect was registered in, and a flush scheduled outside
    any scope registers none.  No scope is current after the microtask. *)
Theorem X8_flush_registers_cleanups_in_captured_scope fuel st captured rest :
  microtasks st = captured :: rest ->
  owner st = None ->
  owner (state_of (microtask body fuel st)) = None /\
  exists l,
    cleanups (state_of (microtask body fuel st)) = cleanups st ++ l /\
    (forall e, In e l -> captured = Some (fst e)) /\
    (captured = None -> l = []).
Proof.
  intros M Ost.
  assert (R : forall s,
            owner (state_of (runEffects body fuel s)) = owner s /\
            exists l,
              cleanups (state_of (runEffects body fuel s)) = cleanups s ++ l /\
              forall e, In e l -> owner s = Some (fst e)).
  { intros s. unfold runEffects.
    destruct (drain_cleanups fuel (set_runningEffects true s)) as (O & l & C & Hl).
    change (owner (set_runningEffects true s)) with (owner s) in *.
    change (cleanups (set_runningEffects true s)) with (cleanups s) in *.
    destruct (drain body fuel (set_runningEffects true s)) as [x|x|x];
      cbn [state_of] in *; (split; [exact O|]); exists l; split; assumption. }
  assert (Hnil : forall (l : list (Owner * EffectFunction)),
            (forall e, In e l -> captured = Some (fst e)) ->
            captured = None -> l = []).
  { intros l Hl Hc. destruct l as [|e l]; [reflexivity|].
    specialize (Hl e (or_introl eq_refl)). congruence. }
  unfold microtask. rewrite M. destruct captured as [o|].
  - unfold runWithOwner.
    destruct (R (set_owner (Some o) (set_microtasks rest st))) as (_ & l & C & Hl).
    change (cleanups (set_owner (Some o) (set_microtasks rest st)))
      with (cleanups st) in C.
    change (owner (set_owner (Some o) (set_microtasks rest st)))
      with (Some o) in Hl.
    change (owner (set_microtasks rest st)) with (owner st).
    destruct (runEffects body fuel (set_owner (Some o) (set_microtasks rest st)))
      as [x|x|x]; cbn [state_of] in *;
      (split; [exact Ost|]); exists l;
      (split; [exact C|]); (split; [exact Hl | now apply Hnil]).
  - destruct (R (set_microtasks rest st)) as (O & l & C & Hl).
    change (cleanups (set_microtasks rest st)) with (cleanups st) in C.
    change (owner (set_microtasks rest st)) with (owner st) in *.
    rewrite Ost in *. split; [exact O|].
    exists l. split; [exact C|]. split; [exact Hl | now apply Hnil].
Qed.

End FlushFacts.

Lemma X7_witness :
  NoDup (effectQueue ScenarioMore.two_readers) /\
  exists st',
    runEffects Scenario.push_S 2 ScenarioMore.two_readers = Normal st' /\
    called (trace st') = [Scenario.f; Scenario.g].
Proof.
  assert (Hnd : NoDup (effectQueue ScenarioMore.two_readers)).
  { vm_compute. repeat constructor; simpl; intuition discriminate. }
  split; [exact Hnd|].
  assert (Hro : forall g, In g (effectQueue ScenarioMore.two_readers) ->
                  only_reads (Scenario.push_S g None)).
  { intros g _ v. exact I. }
  assert (Hlen : length (effectQueue ScenarioMore.two_readers) <= 2)
    by (vm_compute; lia).
  destruct (X7_flush_of_readers_replays_queue_once Scenario.push_S 2
              ScenarioMore.two_readers Hnd Hro Hlen) as (st' & E & C & _).
  exists st'. split; [exact E | exact C].
Defined.

Lemma X8_witness :
  microtasks ScenarioMore.two_readers = [Some 7] /\
  exists l,
    cleanups (state_of (microtask Scenario.push_S 2 ScenarioMore.two_readers))
      = cleanups ScenarioMore.two_readers ++ l /\
    (forall e, In e l -> Some 7 = Some (fst e)).
Proof.
  assert (M : microtasks ScenarioMore.two_readers = [Some 7]) by reflexivity.
  split; [exact M|].
  destruct (X8_flush_registers_cleanups_in_captured_scope Scenario.push_S 2
              ScenarioMore.two_readers (Some 7) [] M eq_refl)
    as (_ & l & C & Hl & _).
  exists l. split; [exact C | exact Hl].
Defined.

(** ** Invariants of the scheduler state *)

Lemma NoDup_queue_add fn q : NoDup q -> NoDup (queue_add fn q).
Proof.
  intros H. unfold queue_add. destruct (queue_has fn q) eqn:E; [exact H|].
  apply NoDup_app; [exact H | repeat constructor; intros [] |].
  intros x Hx [<- |[]]. apply queue_has_In in Hx. congruence.
Qed.

Lemma NoDup_queue_delete fn q : NoDup q -> NoDup (queue_delete fn q).
Proof. apply NoDup_filter. Qed.

Lemma NoDup_scan s m q : NoDup q -> NoDup (scan s m q).
Proof.
  revert q. induction m as [|[fn deps] m IH]; intros q H; simpl; [exact H|].
  apply IH. rewrite scan_set_eq. destruct (memb s deps); [|exact H].
  unfold move_to_end. now apply NoDup_queue_add, NoDup_queue_delete.
Qed.

Lemma NoDup_set_add s l : NoDup l -> NoDup (set_add s l).
Proof.
  intros H. unfold set_add. destruct (memb s l) eqn:E; [exact H|].
  apply NoDup_app; [exact H | repeat constructor; intros [] |].
  intros x Hx [<- |[]]. apply memb_In in Hx. congruence.
Qed.

Lemma Forall_NoDup_record fn s (m : list (EffectFunction * list Setter)) :
  Forall (fun e => NoDup (snd e)) m ->
  Forall (fun e => NoDup (snd e)) (deps_record fn s m).
Proof.
  induction m as [|[g d] m IH]; intros H; simpl.
  - repeat constructor. intros [].
  - inversion H as [|? ? Hd Hm]; subst. destruct (fn_eqb fn g); constructor;
      auto. simpl. now apply NoDup_set_add.
Qed.

Lemma Forall_NoDup_clear fn (m : list (EffectFunction * list Setter)) :
  Forall (fun e => NoDup (snd e)) m ->
  Forall (fun e => NoDup (snd e)) (deps_clear fn m).
Proof.
  induction m as [|[g d] m IH]; intros H; simpl; [constructor|].
  inversion H as [|? ? Hd Hm]; subst. destruct (fn_eqb fn g); constructor; auto.
  simpl. constructor.
Qed.

Lemma NoDup_keys_delete fn (m : list (EffectFunction * list Setter)) :
  NoDup (map fst m) -> NoDup (map fst (deps_delete fn m)).
Proof.
  unfold deps_delete. induction m as [|[g d] m IH]; simpl; intros H;
    [constructor|].
  inversion H as [|? ? Hg Hm]; subst.
  destruct (fn_eqb fn g); simpl; [now apply IH|].
  constructor; [|now apply IH].
  intros Hin. apply Hg. apply in_map_iff in Hin.
  destruct Hin as (e & E & He). apply filter_In in He.
  apply in_map_iff. exists e. tauto.
Qed.

Lemma initial_update_computation c f l :
  (forall x, c_initial (f x) = c_initial x) ->
  (forall x, In x l -> c_initial x = false) ->
  forall x, In x (update_computation c f l) -> c_initial x = false.
Proof.
  intros Hf H x Hx. apply In_nth_error in Hx. destruct Hx as [i E].
  apply nth_error_update_computation in E.
  destruct E as (y & Ey & [-> |[_ ->]]).
  - apply H. eapply nth_error_In. eassumption.
  - rewrite Hf. apply H. eapply nth_error_In. eassumption.
Qed.

Lemma sound_rerun c st : sound st -> sound (rerun c st).
Proof.
  intros H. unfold rerun.
  destruct (nth_error (computations st) c) as [x|]; [|exact H].
  destruct (c_initial x); [exact H|].
  destruct H as (Q & K & F & I & Mr & Ms & Mi).
  assert (I' : forall y,
            In y (update_computation c unsubscribe (computations st)) ->
            c_initial y = false).
  { apply initial_update_computation; [reflexivity | exact I]. }
  pose proof (NoDup_queue_add (c_fn x) (effectQueue st) Q) as Q'.
  unfold wrapper_subsequent, sound. cbn.
  destruct (runningEffects st) eqn:R; cbn; rewrite ?R.
  - repeat split; auto; discriminate.
  - destruct (effectTaskIsScheduled st) eqn:T; cbn; rewrite ?R, ?T.
    + repeat split; auto; discriminate.
    + rewrite (Mi eq_refl eq_refl). repeat split; auto; try discriminate.
      intros _ _. exists (c_owner x). reflexivity.
Qed.

Lemma sound_set s v st : sound st -> sound (set s v st).
Proof.
  assert (B : forall st0, sound st0 -> sound (_set s v st0)).
  { intros st0 H. unfold _set. destruct (Z.eqb (read_cell s st0) v); [exact H|].
    apply notify_invariant; [intros c s0; apply sound_rerun | exact H]. }
  intros H. unfold set. destruct (runningEffects st) eqn:R; cbn [negb];
    [|now apply B].
  apply B. destruct H as (Q & H). split; [|exact H].
  cbn. now apply NoDup_scan.
Qed.

Lemma sound_get c s st : sound st -> sound (snd (get c s st)).
Proof.
  intros (Q & K & F & I & M).
  assert (I' : forall y,
            In y (update_computation c (subscribe s) (computations st)) ->
            c_initial y = false).
  { apply initial_update_computation; [reflexivity | exact I]. }
  unfold get, _get, sound. cbn. destruct (runningEffects st) eqn:R; cbn;
    rewrite ?R; repeat split; auto; try apply M.
  - now apply NoDup_keys_record.
  - now apply Forall_NoDup_record.
Qed.

Lemma sound_exec fn c p st : sound st -> sound (state_of (exec fn c p st)).
Proof.
  revert st. induction p as [v| |s k IH|s v k IH|v k IH]; intros st H.
  - exact H.
  - exact H.
  - rewrite exec_ReadSignal. apply IH. now apply sound_get.
  - simpl. apply IH. now apply sound_set.
  - simpl. apply IH. exact H.
Qed.

Lemma sound_run_cleanups (l : list (Owner * EffectFunction)) st :
  sound st -> sound (run_cleanups l st).
Proof.
  unfold run_cleanups. revert st. induction l as [|e l IH]; intros st H;
    simpl; [exact H|].
  apply IH. destruct H as (Q & K & F & I & M).
  unfold run_cleanup, sound. cbn. repeat split; auto; try apply M.
  - now apply NoDup_queue_delete.
  - now apply NoDup_keys_delete.
  - unfold deps_delete. apply Forall_forall. intros x Hx.
    apply filter_In in Hx. destruct Hx as [Hx _].
    rewrite Forall_forall in F. now apply F.
Qed.

Lemma sound_dispose o st : sound st -> sound (dispose o st).
Proof.
  intros H. unfold dispose.
  apply (sound_run_cleanups (filter (attached_to o) (cleanups st))) in H.
  revert H. generalize (run_cleanups (filter (attached_to o) (cleanups st)) st).
  intros s (Q & K & F & I & M). unfold sound. cbn.
  repeat split; auto; try apply M.
  intros x Hx. apply in_map_iff in Hx. destruct Hx as (y & <- & Hy).
  destruct (owned_by o y); [cbn|]; now apply I.
Qed.

Section Soundness.

Variable body : EffectFunction -> option Z -> Code.

Lemma sound_createDeferredEffect fn value st :
  sound st -> sound (state_of (createDeferredEffect body fn value st)).
Proof.
  intros H. rewrite createDeferredEffect_eq.
  assert (H0 : sound (about_to_call fn value st)).
  { destruct H as (Q & K & F & I & M). unfold sound, about_to_call. cbn.
    rewrite keys_clear. repeat split; auto; try apply M.
    - now apply Forall_NoDup_clear.
    - intros x Hx. apply in_app_or in Hx. destruct Hx as [Hx|[<- |[]]];
        [now apply I | reflexivity]. }
  apply (sound_exec fn (length (computations st)) (body fn value)) in H0.
  destruct (exec fn (length (computations st)) (body fn value)
              (about_to_call fn value st)) as [s|s|s]; cbn [state_of] in *;
    try exact H0.
  unfold onCleanup. destruct (owner s); exact H0.
Qed.

Lemma sound_drain fuel st : sound st -> sound (state_of (drain body fuel st)).
Proof.
  revert st. induction fuel as [|fuel IH]; intros st H.
  - simpl. destruct (effectQueue st); exact H.
  - destruct (effectQueue st) as [|g q] eqn:Q; [simpl; rewrite Q; exact H|].
    rewrite (drain_step body fuel g q st Q).
    assert (Hd : sound (dequeued g st)).
    { destruct H as (Hq & H). split; [|exact H]. cbn.
      now apply NoDup_queue_delete. }
    apply (sound_createDeferredEffect g None) in Hd.
    destruct (createDeferredEffect body g None (dequeued g st)) as [s|s|s];
      cbn [state_of] in *; try exact Hd.
    now apply IH.
Qed.

Lemma sound_runEffects fuel st :
  NoDup (effectQueue st) ->
  NoDup (map fst (effectDeps st)) ->
  Forall (fun e => NoDup (snd e)) (effectDeps st) ->
  (forall x, In x (computations st) -> c_initial x = false) ->
  microtasks st = [] ->
  sound (state_of (runEffects body fuel st)).
Proof.
  intros Q K F I M. unfold runEffects.
  assert (H0 : sound (set_runningEffects true st)).
  { unfold sound. cbn. repeat split; auto; discriminate. }
  apply (sound_drain fuel) in H0.
  destruct (drain_flags body fuel (set_runningEffects true st) eq_refl)
    as (_ & _ & M').
  destruct (drain body fuel (set_runningEffects true st)) as [s|s|s];
    cbn [state_of] in *; try exact H0.
  destruct H0 as (Q' & K' & F' & I' & _). unfold sound. cbn.
  cbn in M'. rewrite M', M. repeat split; auto; discriminate.
Qed.

Lemma sound_microtask fuel st :
  sound st -> sound (state_of (microtask body fuel st)).
Proof.
  intros H. unfold microtask.
  destruct (microtasks st) as [|w rest] eqn:M; [exact H|].
  assert (Hrest : rest = []).
  { destruct H as (_ & _ & _ & _ & Mr & Ms & Mi).
    destruct (runningEffects st) eqn:R.
    - rewrite (Mr eq_refl) in M. discriminate.
    - destruct (effectTaskIsScheduled st) eqn:T.
      + destruct (Ms eq_refl eq_refl) as (o & E). rewrite E in M.
        now injection M.
      + rewrite (Mi eq_refl eq_refl) in M. discriminate. }
  subst rest. destruct H as (Q & K & F & I & _).
  destruct w as [o|].
  - unfold runWithOwner.
    pose proof (sound_runEffects fuel (set_owner (Some o) (set_microtasks [] st))
                  Q K F I eq_refl) as H1.
    destruct (runEffects body fuel (set_owner (Some o) (set_microtasks [] st)))
      as [s|s|s]; cbn [state_of] in *; exact H1.
  - apply (sound_runEffects fuel (set_microtasks [] st) Q K F I eq_refl).
Qed.

Lemma later_sound st0 st : sound st0 -> later body st0 st -> sound st.
Proof.
  intros H0 H.
  induction H as [|st v _ IH|st fn value _ IH|st o fn value _ IH
                  |st s v _ IH|st fuel _ IH|st o _ IH].
  - exact H0.
  - exact IH.
  - now apply sound_createDeferredEffect.
  - unfold runWithOwner.
    assert (H1 : sound (set_owner (Some o) st)) by exact IH.
    apply (sound_createDeferredEffect fn value) in H1.
    destruct (createDeferredEffect body fn value (set_owner (Some o) st))
      as [x|x|x]; cbn [state_of] in *; exact H1.
  - now apply sound_set.
  - now apply sound_microtask.
  - now apply sound_dispose.
Qed.

Lemma reachable_later st : reachable body st -> later body initial_state st.
Proof.
  intros H. induction H; try (constructor; assumption).
Qed.

Lemma sound_initial : sound initial_state.
Proof.
  unfold sound. cbn. repeat split; auto; try constructor; try discriminate.
  intros x [].
Qed.

Lemma reachable_sound st : reachable body st -> sound st.
Proof.
  intros H. apply reachable_later in H.
  exact (later_sound initial_state st sound_initial H).
Qed.

(** X9: in every state a program can reach, the queue holds no effect
    twice, the registry has one entry per effect and no setter twice in a
    set, every base effect has had its first run, and a microtask is
    pending exactly when no flush runs and [effectTaskIsScheduled] is
    true; it is then the only one. *)
Theorem X9_reachable_states_are_sound st :
  reachable body st ->
  NoDup (effectQueue st) /\
  NoDup (map fst (effectDeps st)) /\
  (forall fn, NoDup (deps_of fn st)) /\
  (forall x, In x (computations st) -> c_initial x = false) /\
  (microtasks st <> [] <->
   runningEffects st = false /\ effectTaskIsScheduled st = true) /\
  length (microtasks st) <= 1.
Proof.
  intros H. apply reachable_later in H.
  apply (later_sound initial_state st sound_initial) in H.
  destruct H as (Q & K & F & I & Mr & Ms & Mi).
  split; [exact Q|]. split; [exact K|]. split; [|split; [exact I|]].
  - intros fn. unfold deps_of.
    destruct (deps_get fn (effectDeps st)) as [d|] eqn:G; [|constructor].
    rewrite Forall_forall in F.
    assert (Hin : In (fn, d) (effectDeps st)).
    { clear -G. induction (effectDeps st) as [|[g d'] m IH]; simpl in *;
        [discriminate|].
      destruct (fn_eqb fn g) eqn:E.
      - apply fn_eqb_eq in E. subst g. injection G as ->. now left.
      - right. now apply IH. }
    apply (F _ Hin).
  - destruct (runningEffects st) eqn:R.
    + rewrite (Mr eq_refl). simpl. split; [|lia].
      split; [intros H; now contradiction H | intros (H & _); discriminate].
    + destruct (effectTaskIsScheduled st) eqn:T.
      * destruct (Ms eq_refl eq_refl) as (o & ->). simpl. split; [|lia].
        split; [auto | intros _; discriminate].
      * rewrite (Mi eq_refl eq_refl). simpl. split; [|lia].
        split; [intros H; now contradiction H | intros (_ & H); discriminate].
Qed.

End Soundness.

Lemma observers_from_complete k s l i x :
  nth_error l i = Some x -> In s (c_sources x) ->
  In (k + i) (observers_from k s l).
Proof.
  revert k i. induction l as [|a l IH]; intros k [|i] E Hs; simpl in *;
    try discriminate.
  - injection E as ->. apply memb_In in Hs. rewrite Hs, Nat.add_0_r. now left.
  - replace (k + S i) with (S k + i) by lia.
    destruct (memb s (c_sources a)); [right|]; now apply IH.
Qed.

Lemma nth_error_rerun c' st c x :
  nth_error (computations st) c = Some x ->
  exists x', nth_error (computations (rerun c' st)) c = Some x' /\
             c_fn x' = c_fn x /\ c_initial x' = c_initial x.
Proof.
  intros E.
  destruct (Forall2_nth_error_l shrinks _ _ c x (computations_rerun c' st) E)
    as (x' & E' & F & _).
  exists x'. split; [exact E'|]. split; [exact F|].
  revert E'. unfold rerun.
  destruct (nth_error (computations st) c') as [y|]; [|congruence].
  destruct (c_initial y); [congruence|].
  unfold wrapper_subsequent. cbn.
  assert (H : nth_error (update_computation c' unsubscribe (computations st)) c
              = Some x' -> c_initial x' = c_initial x).
  { intros H. apply nth_error_update_computation in H.
    destruct H as (x0 & E0 & [-> |[_ ->]]); [congruence|].
    cbn. congruence. }
  destruct (runningEffects st); cbn; [exact H|].
  destruct (effectTaskIsScheduled st); cbn; exact H.
Qed.

Lemma scheduled_rerun c st :
  runningEffects st = false -> effectTaskIsScheduled st = true ->
  effectTaskIsScheduled (rerun c st) = true.
Proof.
  intros R T. unfold rerun.
  destruct (nth_error (computations st) c) as [x|]; [|exact T].
  destruct (c_initial x); [exact T|].
  unfold wrapper_subsequent. cbn. rewrite R. cbn. rewrite T. cbn. exact T.
Qed.

Lemma rerun_enqueues c st x :
  nth_error (computations st) c = Some x -> c_initial x = false ->
  In (c_fn x) (effectQueue (rerun c st)) /\
  (runningEffects st = false -> effectTaskIsScheduled (rerun c st) = true).
Proof.
  intros E I. unfold rerun. rewrite E, I. unfold wrapper_subsequent. cbn.
  assert (Q : In (c_fn x) (queue_add (c_fn x) (effectQueue st)))
    by (apply In_queue_add; now left).
  destruct (runningEffects st); cbn; [split; [exact Q | discriminate]|].
  destruct (effectTaskIsScheduled st) eqn:T; cbn; split; auto.
Qed.

Lemma notify_enqueues cs st c x :
  In c cs -> nth_error (computations st) c = Some x -> c_initial x = false ->
  In (c_fn x) (effectQueue (notify cs st)) /\
  (runningEffects st = false -> effectTaskIsScheduled (notify cs st) = true).
Proof.
  unfold notify. revert st x. induction cs as [|c' cs IH]; intros st x Hin E I;
    [destruct Hin|].
  simpl fold_left.
  assert (Keep : forall s0,
            (In (c_fn x) (effectQueue s0) ->
             In (c_fn x) (effectQueue (fold_left (fun acc c0 => rerun c0 acc) cs s0))) /\
            (runningEffects s0 = false -> effectTaskIsScheduled s0 = true ->
             effectTaskIsScheduled (fold_left (fun acc c0 => rerun c0 acc) cs s0)
             = true)).
  { intros s0. split.
    - intros H. destruct (same_control_notify cs s0) as (_ & _ & _ & _ & _ & _ & Q).
      now apply Q.
    - clear. revert s0. induction cs as [|c0 cs IHc]; intros s0 R T; simpl;
        [exact T|].
      apply IHc; [|now apply scheduled_rerun].
      destruct (same_control_rerun c0 s0) as (R' & _). congruence. }
  assert (R' : runningEffects (rerun c' st) = runningEffects st)
    by (destruct (same_control_rerun c' st) as (R' & _); exact R').
  destruct (Nat.eq_dec c' c) as [-> |Hne].
  - destruct (rerun_enqueues c st x E I) as (A & B).
    destruct (Keep (rerun c st)) as (K1 & K2). split; [now apply K1|].
    intros R. apply K2; [congruence | now apply B].
  - destruct Hin as [Hin|Hin]; [contradiction|].
    destruct (nth_error_rerun c' st c x E) as (x' & E' & F & I').
    destruct (IH (rerun c' st) x' Hin E') as (A & B); [congruence|].
    rewrite F in A. split; [exact A|]. intros R. apply B. congruence.
Qed.

Lemma dispose_flags o st :
  runningEffects (dispose o st) = runningEffects st /\
  effectTaskIsScheduled (dispose o st) = effectTaskIsScheduled st /\
  microtasks (dispose o st) = microtasks st.
Proof.
  assert (G : forall (l : list (Owner * EffectFunction)) s,
            runningEffects (run_cleanups l s) = runningEffects s /\
            effectTaskIsScheduled (run_cleanups l s) = effectTaskIsScheduled s /\
            microtasks (run_cleanups l s) = microtasks s).
  { unfold run_cleanups. induction l as [|e l IH]; intros s; simpl; [auto|].
    destruct (IH (run_cleanup (snd e) s)) as (A & B & C). auto. }
  unfold dispose. cbn. apply G.
Qed.

Section Liveness.

Variable body : EffectFunction -> option Z -> Code.

(** X4: no wake-up is lost while the scheduler is idle or waiting.  In a
    reachable state in which no flush runs, a write that changes a signal
    observed by a base effect of [fn] leaves [fn] pending, with
    [effectTaskIsScheduled] set and exactly one microtask queued to
    replay it; the write itself calls no effect. *)
Theorem X4_changing_write_schedules_observer s v fn st :
  reachable body st ->
  runningEffects st = false ->
  observed_by s fn st ->
  read_cell s st <> v ->
  In fn (effectQueue (set s v st)) /\
  effectTaskIsScheduled (set s v st) = true /\
  (exists o, microtasks (set s v st) = [o]) /\
  calls fn (set s v st) = calls fn st.
Proof.
  intros Hr R (x & Hx & Hf & Hs) Hv.
  apply reachable_later in Hr.
  pose proof (later_sound body initial_state st sound_initial Hr) as S.
  pose proof (sound_set s v st S) as S'.
  assert (I : c_initial x = false) by (destruct S as (_ & _ & _ & I & _); auto).
  apply In_nth_error in Hx. destruct Hx as [i Ei].
  assert (A : In fn (effectQueue (set s v st)) /\
              effectTaskIsScheduled (set s v st) = true).
  { unfold set. rewrite R. cbn [negb]. unfold _set.
    apply Z.eqb_neq in Hv. rewrite Hv.
    destruct (notify_enqueues
                (observers s (set_cells (write_cell s v (cells st)) st))
                (set_cells (write_cell s v (cells st)) st) i x) as (A & B).
    - unfold observers. cbn.
      apply (observers_from_complete 0 s (computations st) i x Ei Hs).
    - exact Ei.
    - exact I.
    - rewrite Hf in A. split; [exact A | now apply B]. }
  destruct A as (A & B). split; [exact A|]. split; [exact B|].
  destruct (same_control_set s v st) as (R' & _).
  split; [|apply calls_same_log, same_log_set].
  destruct S' as (_ & _ & _ & _ & _ & Ms & _). apply Ms; congruence.
Qed.

Lemma stuck_later st0 st :
  runningEffects st0 = true -> microtasks st0 = [] ->
  later body st0 st ->
  runningEffects st = true /\ microtasks st = [] /\
  effectTaskIsScheduled st = effectTaskIsScheduled st0.
Proof.
  intros R0 M0 H.
  induction H as [|st v _ IH|st fn value _ IH|st o fn value _ IH
                  |st s v _ IH|st fuel _ IH|st o _ IH].
  - auto.
  - exact IH.
  - destruct IH as (R & M & T).
    pose proof (createDeferredEffect_control body fn value st) as (R' & _ & _ & F & _).
    cbn zeta in *. destruct (F R) as (F1 & F2).
    repeat split; congruence.
  - destruct IH as (R & M & T).
    pose proof (createDeferredEffect_control body fn value (set_owner (Some o) st))
      as (R' & _ & _ & F & _).
    cbn zeta in *.
    change (runningEffects (set_owner (Some o) st)) with (runningEffects st) in *.
    change (effectTaskIsScheduled (set_owner (Some o) st))
      with (effectTaskIsScheduled st) in *.
    change (microtasks (set_owner (Some o) st)) with (microtasks st) in *.
    destruct (F R) as (F1 & F2). unfold runWithOwner.
    destruct (createDeferredEffect body fn value (set_owner (Some o) st))
      as [x|x|x]; cbn [state_of] in *; cbn; repeat split; congruence.
  - destruct IH as (R & M & T).
    destruct (same_control_set s v st) as (R' & _ & _ & _ & F & _).
    destruct (F R) as (F1 & F2). repeat split; congruence.
  - destruct IH as (R & M & T). unfold microtask. rewrite M. cbn. auto.
  - destruct IH as (R & M & T).
    destruct (dispose_flags o st) as (A & B & C). repeat split; congruence.
Qed.

(** X5: once a flush of a reachable state has thrown, the scheduler is
    dead.  Whatever the program does afterwards, [runningEffects] and
    [effectTaskIsScheduled] stay true and no microtask is ever queued, so
    the host has no flush to run and the pending effects are not replayed
    (the flags are reset at lines 131-132 only). *)
Theorem X5_thrown_flush_kills_scheduler fuel st st1 st2 :
  reachable body st ->
  microtask body fuel st = Threw st1 ->
  later body st1 st2 ->
  runningEffects st2 = true /\
  effectTaskIsScheduled st2 = true /\
  microtasks st2 = [] /\
  (forall n, microtask body n st2 = Normal st2).
Proof.
  intros Hr E Hl.
  apply reachable_later in Hr.
  pose proof (later_sound body initial_state st sound_initial Hr) as S.
  assert (H1 : runningEffects st1 = true /\ microtasks st1 = [] /\
               effectTaskIsScheduled st1 = true).
  { unfold microtask in E.
    destruct (microtasks st) as [|w rest] eqn:M; [discriminate|].
    destruct S as (_ & _ & _ & _ & Mr & Ms & Mi).
    assert (R : runningEffects st = false).
    { destruct (runningEffects st); [|reflexivity].
      rewrite (Mr eq_refl) in M. discriminate. }
    assert (T : effectTaskIsScheduled st = true).
    { destruct (effectTaskIsScheduled st); [reflexivity|].
      rewrite (Mi R eq_refl) in M. discriminate. }
    assert (Hrest : rest = []).
    { destruct (Ms R T) as (o & Eo). rewrite Eo in M. now injection M. }
    subst rest.
    assert (G : forall s x, runEffects body fuel s = Threw x ->
                microtasks s = [] ->
                runningEffects x = true /\ microtasks x = [] /\
                effectTaskIsScheduled x = effectTaskIsScheduled s).
    { intros s x Ex Ms0.
      unfold runEffects in Ex.
      destruct (drain_flags body fuel (set_runningEffects true s) eq_refl)
        as (A & B & M').
      destruct (drain body fuel (set_runningEffects true s)) as [y|y|y];
        try discriminate.
      injection Ex as <-. cbn in *. repeat split; congruence. }
    destruct w as [o|].
    - unfold runWithOwner in E.
      destruct (runEffects body fuel (set_owner (Some o) (set_microtasks [] st)))
        as [x|x|x] eqn:Ex; try discriminate.
      injection E as <-.
      destruct (G _ _ Ex eq_refl) as (A & B & C). cbn in *.
      repeat split; congruence.
    - destruct (G _ _ E eq_refl) as (A & B & C). cbn in *.
      repeat split; congruence. }
  destruct H1 as (R1 & M1 & T1).
  destruct (stuck_later st1 st2 R1 M1 Hl) as (R2 & M2 & T2).
  split; [exact R2|]. split; [congruence|]. split; [exact M2|].
  intros n. unfold microtask. now rewrite M2.
Qed.

End Liveness.

Lemma registered_twice_reachable :
  reachable ScenarioTwice.reads_by_value ScenarioTwice.registered.
Proof.
  change ScenarioTwice.registered
    with (state_of (createDeferredEffect ScenarioTwice.reads_by_value
            Scenario.g None
            (state_of (createDeferredEffect ScenarioTwice.reads_by_value
               Scenario.f (Some 1%Z)
               (state_of (createDeferredEffect ScenarioTwice.reads_by_value
                  Scenario.f (Some 0%Z)
                  (snd (createSignal 0%Z
                     (snd (createSignal 0%Z
                        (snd (createSignal 0%Z initial_state)))))))))))).
  repeat constructor.
Qed.

Lemma armed_reachable :
  reachable ScenarioMore.throws_on_replay ScenarioMore.armed.
Proof.
  change ScenarioMore.armed
    with (set 0 5%Z
            (state_of (createDeferredEffect ScenarioMore.throws_on_replay
                         Scenario.f (Some 1%Z)
                         (snd (createSignal 0%Z initial_state))))).
  repeat constructor.
Qed.

Lemma X9_witness :
  reachable ScenarioTwice.reads_by_value ScenarioTwice.two_pending /\
  NoDup (effectQueue ScenarioTwice.two_pending) /\
  length (microtasks ScenarioTwice.two_pending) <= 1.
Proof.
  split; [exact two_pending_reachable|].
  destruct (X9_reachable_states_are_sound ScenarioTwice.reads_by_value
              ScenarioTwice.two_pending two_pending_reachable)
    as (Q & _ & _ & _ & _ & L).
  split; [exact Q | exact L].
Defined.

Lemma X4_witness :
  runningEffects ScenarioTwice.registered = false /\
  read_cell ScenarioTwice.sig_X ScenarioTwice.registered <> 5%Z /\
  In Scenario.f
     (effectQueue (set ScenarioTwice.sig_X 5%Z ScenarioTwice.registered)) /\
  effectTaskIsScheduled (set ScenarioTwice.sig_X 5%Z ScenarioTwice.registered)
    = true.
Proof.
  assert (R : runningEffects ScenarioTwice.registered = false) by reflexivity.
  assert (V : read_cell ScenarioTwice.sig_X ScenarioTwice.registered <> 5%Z)
    by (vm_compute; discriminate).
  assert (O : observed_by ScenarioTwice.sig_X Scenario.f ScenarioTwice.registered).
  { exists (mkComputation Scenario.f false None [0]).
    vm_compute. repeat split; left; reflexivity. }
  destruct (X4_changing_write_schedules_observer ScenarioTwice.reads_by_value
              ScenarioTwice.sig_X 5%Z Scenario.f ScenarioTwice.registered
              registered_twice_reachable R O V) as (A & B & _).
  split; [exact R|]. split; [exact V|]. split; [exact A | exact B].
Defined.

Lemma X5_witness :
  microtask ScenarioMore.throws_on_replay 1 ScenarioMore.armed
    = Threw ScenarioMore.thrown /\
  runningEffects (set 0 6%Z ScenarioMore.thrown) = true /\
  microtasks (set 0 6%Z ScenarioMore.thrown) = [].
Proof.
  assert (E : microtask ScenarioMore.throws_on_replay 1 ScenarioMore.armed
              = Threw ScenarioMore.thrown) by (vm_compute; reflexivity).
  split; [exact E|].
  destruct (X5_thrown_flush_kills_scheduler ScenarioMore.throws_on_replay 1
              ScenarioMore.armed ScenarioMore.thrown
              (set 0 6%Z ScenarioMore.thrown) armed_reachable E
              (later_set _ _ _ 0 6%Z (later_now _ _)))
    as (R & _ & M & _).
  split; [exact R | exact M].
Defined.

(** ** Cleanup and coalescing *)

Lemma deps_get_delete g fn m :
  deps_get g (deps_delete fn m) = if fn_eqb g fn then None else deps_get g m.
Proof.
  unfold deps_delete. induction m as [|[k d] m IH]; simpl.
  - destruct (fn_eqb g fn); reflexivity.
  - destruct (fn_eqb fn k) eqn:Efk; simpl.
    + apply fn_eqb_eq in Efk. subst k. rewrite IH.
      destruct (fn_eqb g fn); reflexivity.
    + destruct (fn_eqb g k) eqn:Egk; [|exact IH].
      apply fn_eqb_eq in Egk. subst k. rewrite fn_eqb_sym in Efk.
      now rewrite Efk.
Qed.

Lemma run_cleanups_effect (l : list (Owner * EffectFunction)) st :
  effectQueue (run_cleanups l st) =
    filter (fun g => negb (existsb (fun e => fn_eqb (snd e) g) l)) (effectQueue st) /\
  (forall g, deps_get g (effectDeps (run_cleanups l st)) =
             if existsb (fun e => fn_eqb (snd e) g) l then None
             else deps_get g (effectDeps st)) /\
  cleanups (run_cleanups l st) = cleanups st /\
  trace (run_cleanups l st) = trace st /\
  computations (run_cleanups l st) = computations st.
Proof.
  unfold run_cleanups. revert st. induction l as [|e l IH]; intros st; simpl.
  - repeat split; auto. induction (effectQueue st) as [|a q IHq]; simpl;
      [reflexivity | now f_equal].
  - destruct (IH (run_cleanup (snd e) st)) as (Q & D & C & T & P).
    rewrite Q, C, T, P. cbn. repeat split; auto.
    + unfold queue_delete. rewrite filter_filter. apply filter_ext.
      intros a. now rewrite negb_orb.
    + intros g. rewrite D. cbn. rewrite deps_get_delete, (fn_eqb_sym g (snd e)).
      destruct (fn_eqb (snd e) g); simpl;
        destruct (existsb (fun e0 => fn_eqb (snd e0) g) l); reflexivity.
Qed.

(** X12: disposing an ownership scope removes from the queue and from the
    registry exactly the effects that have a cleanup callback in that
    scope.  The other pending effects keep their order, the other registry
    entries their sets, the callbacks of other scopes stay registered,
    and no effect is called. *)
Theorem X12_dispose_removes_only_effects_of_scope o st :
  effectQueue (dispose o st) =
    filter (fun g => negb (existsb (fun e => attached_to o e && fn_eqb (snd e) g)
                             (cleanups st)))
      (effectQueue st) /\
  (forall g, deps_get g (effectDeps (dispose o st)) =
             if existsb (fun e => attached_to o e && fn_eqb (snd e) g) (cleanups st)
             then None else deps_get g (effectDeps st)) /\
  cleanups (dispose o st) = filter (fun e => negb (attached_to o e)) (cleanups st) /\
  trace (dispose o st) = trace st.
Proof.
  assert (X : forall g (l : list (Owner * EffectFunction)),
            existsb (fun e => fn_eqb (snd e) g) (filter (attached_to o) l)
            = existsb (fun e => attached_to o e && fn_eqb (snd e) g) l).
  { intros g l. induction l as [|e l IH]; simpl; [reflexivity|].
    destruct (attached_to o e); simpl; now rewrite IH. }
  destruct (run_cleanups_effect (filter (attached_to o) (cleanups st)) st)
    as (Q & D & C & T & P).
  unfold dispose. cbn. rewrite Q, C, T. repeat split.
  - apply filter_ext. intros g. now rewrite X.
  - intros g. rewrite D, X. reflexivity.
Qed.

Lemma length_filter_NoDup g q :
  NoDup q -> length (filter (fn_eqb g) q) = if queue_has g q then 1 else 0.
Proof.
  induction q as [|a q IH]; intros H; simpl; [reflexivity|].
  inversion H as [|? ? Ha Hq]; subst. specialize (IH Hq).
  destruct (fn_eqb g a) eqn:E; simpl.
  - apply fn_eqb_eq in E. subst a.
    destruct (queue_has g q) eqn:Hg.
    + apply queue_has_In in Hg. contradiction.
    + now rewrite IH.
  - exact IH.
Qed.

Lemma calls_called g st :
  calls g st = length (filter (fn_eqb g) (called (trace st))).
Proof.
  unfold calls. induction (trace st) as [|e evs IH]; simpl; [reflexivity|].
  destruct e as [fn prev|fn v|s]; simpl; try exact IH.
  destruct (fn_eqb g fn); simpl; now rewrite IH.
Qed.

Section Coalescing.

Variable body : EffectFunction -> option Z -> Code.

(** X13: however often their signals were written since the last flush,
    the pending effects of a reachable state are replayed once each.  When
    a flush is scheduled and the pending effects only read, the microtask
    returns after calling every pending effect exactly once, in the order
    of the queue, and leaves the scheduler idle. *)
Theorem X13_scheduled_flush_replays_each_pending_effect_once fuel st :
  reachable body st ->
  microtasks st <> [] ->
  (forall g, In g (effectQueue st) -> only_reads (body g None)) ->
  length (effectQueue st) <= fuel ->
  exists st',
    microtask body fuel st = Normal st' /\
    called (trace st') = called (trace st) ++ effectQueue st /\
    (forall g, calls g st' =
               calls g st + (if queue_has g (effectQueue st) then 1 else 0)) /\
    effectQueue st' = [] /\
    runningEffects st' = false /\
    effectTaskIsScheduled st' = false /\
    microtasks st' = [].
Proof.
  intros Hr Hm Hro Hlen.
  pose proof (reachable_sound body st Hr) as (Q & _ & _ & _ & Mr & Ms & Mi).
  assert (L : length (microtasks st) <= 1).
  { destruct (runningEffects st).
    - rewrite (Mr eq_refl). simpl. lia.
    - destruct (effectTaskIsScheduled st).
      + destruct (Ms eq_refl eq_refl) as (o & ->). simpl. lia.
      + rewrite (Mi eq_refl eq_refl). simpl. lia. }
  assert (G : forall s,
            effectQueue s = effectQueue st -> trace s = trace st ->
            microtasks s = [] ->
            exists s', runEffects body fuel s = Normal s' /\
              called (trace s') = called (trace st) ++ effectQueue st /\
              effectQueue s' = [] /\ runningEffects s' = false /\
              effectTaskIsScheduled s' = false /\ microtasks s' = []).
  { intros s Eq Et Em.
    destruct (runEffects_only_reads body fuel s)
      as (s' & E & C & _); rewrite ?Eq; auto.
    destruct (runEffects_returns_idle body fuel s s' E) as (A1 & A2 & A3 & A4 & _).
    exists s'. rewrite Et, Eq in C. rewrite Em in A4. repeat split; assumption. }
  assert (K : forall s', called (trace s') = called (trace st) ++ effectQueue st ->
            forall g, calls g s' =
                      calls g st + (if queue_has g (effectQueue st) then 1 else 0)).
  { intros s' C g. rewrite !calls_called, C, filter_app, length_app.
    now rewrite (length_filter_NoDup g _ Q). }
  unfold microtask. destruct (microtasks st) as [|w rest] eqn:M;
    [now contradiction Hm|].
  assert (Hrest : rest = []).
  { destruct rest; [reflexivity|]. simpl in L. lia. }
  subst rest. destruct w as [o|].
  - unfold runWithOwner.
    destruct (G (set_owner (Some o) (set_microtasks [] st)) eq_refl eq_refl eq_refl)
      as (s' & E & C & A1 & A2 & A3 & A4).
    rewrite E. eexists. split; [reflexivity|]. cbn.
    split; [exact C|]. split; [|repeat split; assumption].
    intros g. apply (K s' C g).
  - destruct (G (set_microtasks [] st) eq_refl eq_refl eq_refl)
      as (s' & E & C & A1 & A2 & A3 & A4).
    exists s'. split; [exact E|]. split; [exact C|].
    split; [apply (K s' C)|]. repeat split; assumption.
Qed.

End Coalescing.

Lemma scheduled_reachable :
  reachable Scenario.push_S ScenarioMore.scheduled.
Proof.
  change ScenarioMore.scheduled
    with (set Scenario.sig_S 3%Z (set Scenario.sig_S 2%Z
            (state_of (createDeferredEffect Scenario.push_S Scenario.f None
                         (snd (createSignal 1%Z initial_state)))))).
  repeat constructor.
Qed.

Lemma X13_witness :
  microtasks ScenarioMore.scheduled <> [] /\
  exists st',
    microtask Scenario.push_S 1 ScenarioMore.scheduled = Normal st' /\
    calls Scenario.f st' = calls Scenario.f ScenarioMore.scheduled + 1.
Proof.
  assert (M : microtasks ScenarioMore.scheduled <> [])
    by (vm_compute; discriminate).
  split; [exact M|].
  assert (Hro : forall g, In g (effectQueue ScenarioMore.scheduled) ->
                  only_reads (Scenario.push_S g None)).
  { intros g _ v. exact I. }
  assert (Hlen : length (effectQueue ScenarioMore.scheduled) <= 1)
    by (vm_compute; lia).
  destruct (X13_scheduled_flush_replays_each_pending_effect_once
              Scenario.push_S 1 ScenarioMore.scheduled
              scheduled_reachable M Hro Hlen) as (st' & E & _ & K & _).
  exists st'. split; [exact E|]. apply (K Scenario.f).
Defined.

(** * The flush loop under self-requeueing effects *)

Lemma drain_add body k n st :
  drain body (k + n) st =
  match drain body k st with
  | OutOfFuel s => drain body n s
  | r => r
  end.
Proof.
  revert st. induction k as [|k IH]; intros st.
  - simpl. destruct (effectQueue st) eqn:Q; [|reflexivity].
    now apply drain_empty.
  - destruct (effectQueue st) as [|g q] eqn:Q.
    + simpl. rewrite Q. reflexivity.
    + change (S k + n) with (S (k + n)).
      rewrite !(drain_step body _ g q st Q).
      destruct (createDeferredEffect body g None (dequeued g st)) as [s|s|s] eqn:E;
        [apply IH | reflexivity|].
      exfalso. eapply createDeferredEffect_never_out_of_fuel. exact E.
Qed.

Lemma drain_calls_mono body g fuel st :
  calls g st <= calls g (state_of (drain body fuel st)).
Proof.
  revert st. induction fuel as [|fuel IH]; intros st.
  - simpl. destruct (effectQueue st); simpl; lia.
  - destruct (effectQueue st) as [|h q] eqn:Q; [simpl; rewrite Q; simpl; lia|].
    rewrite (drain_step body fuel h q st Q).
    pose proof (createDeferredEffect_control body h None (dequeued h st))
      as (_ & _ & _ & _ & _ & _ & K).
    cbn zeta in K. specialize (K g).
    change (calls g (dequeued h st)) with (calls g st) in K.
    destruct (createDeferredEffect body h None (dequeued h st)) as [s|s|s];
      cbn [state_of] in *; try lia.
    specialize (IH s). lia.
Qed.

(** One replay per iteration: a flush that is cut off after [fuel]
    iterations has called [fuel] effects. *)
Lemma drain_out_of_fuel_calls body fuel st st' :
  drain body fuel st = OutOfFuel st' ->
  length (called (trace st')) = length (called (trace st)) + fuel.
Proof.
  revert st. induction fuel as [|fuel IH]; intros st H.
  - simpl in H. destruct (effectQueue st); [discriminate|].
    injection H as <-. lia.
  - destruct (effectQueue st) as [|g q] eqn:Q;
      [simpl in H; rewrite Q in H; discriminate|].
    rewrite (drain_step body fuel g q st Q) in H.
    pose proof (called_createDeferredEffect body g None (dequeued g st)) as T.
    change (trace (dequeued g st)) with (trace st) in T.
    destruct (createDeferredEffect body g None (dequeued g st)) as [s|s|s] eqn:E;
      cbn [state_of] in *.
    + rewrite (IH s H), T, length_app. simpl. lia.
    + discriminate.
    + exfalso. eapply createDeferredEffect_never_out_of_fuel. exact E.
Qed.

Lemma In_dependents fn s st :
  In s (deps_of fn st) -> In fn (dependents s (effectDeps st)).
Proof.
  unfold deps_of, dependents.
  destruct (deps_get fn (effectDeps st)) as [d|] eqn:G; [|intros []].
  intros Hin. revert G.
  induction (effectDeps st) as [|[g d'] m IH]; simpl; [discriminate|].
  destruct (fn_eqb fn g) eqn:E.
  - intros H. injection H as ->. apply fn_eqb_eq in E. subst g.
    apply memb_In in Hin. rewrite Hin. now left.
  - intros H. specialize (IH H).
    destruct (memb s d'); [now right | assumption].
Qed.

Section StillRunning.

Variable body : EffectFunction -> option Z -> Code.
Variable fn : EffectFunction.

Hypothesis self_write : self_requeueing body fn.

(** C5 (as amended): an effect that on every replay writes a signal whose
    setter is in its own dependency set at that moment is put back into
    the queue by each replay: the write moves it behind every effect that
    does not depend on the written signal.  Once it is pending the queue
    is never empty when an iteration ends, so [runEffects] never returns;
    the loop replays one effect per iteration for as long as it runs, and
    it replays this effect whenever it finds it first in the queue. *)
Theorem C5_self_requeueing_effect_keeps_flush_running st :
  In fn (effectQueue st) ->
  (forall s0, runningEffects s0 = true ->
     calls fn (state_of (createDeferredEffect body fn None s0)) = S (calls fn s0) /\
     In fn (effectQueue (state_of (createDeferredEffect body fn None s0)))) /\
  (forall x s0, runningEffects s0 = true ->
     NoDup (map fst (effectDeps s0)) -> In x (deps_of fn s0) ->
     effectQueue (requeue_dependents x s0) =
       filter (fun g => negb (is_dependent x (effectDeps s0) g)) (effectQueue s0)
       ++ dependents x (effectDeps s0) /\
     In fn (dependents x (effectDeps s0))) /\
  (forall fuel,
     match runEffects body fuel st with
     | Normal _ => False
     | Threw _ => True
     | OutOfFuel st' => In fn (effectQueue st')
     end) /\
  (forall n s0 q, effectQueue s0 = fn :: q ->
     S (calls fn s0) <= calls fn (state_of (drain body (S n) s0))) /\
  ((forall g, never_throws (body g None)) ->
   forall fuel, exists st',
     runEffects body fuel st = OutOfFuel st' /\
     In fn (effectQueue st') /\
     length (called (trace st')) = length (called (trace st)) + fuel).
Proof.
  intros Hin. split.
  { intros s0 R. split; [|now apply (replay_requeues body fn self_write)].
    pose proof (createDeferredEffect_control body fn None s0)
      as (_ & _ & _ & _ & _ & _ & K).
    cbn zeta in K. rewrite K, fn_eqb_refl. reflexivity. }
  split.
  { intros x s0 R Hnd Hx. split; [|now apply In_dependents].
    unfold requeue_dependents. cbn. now apply scan_eq. }
  assert (K : forall fuel,
            match drain body fuel (set_runningEffects true st) with
            | Normal _ => False
            | Threw _ => True
            | OutOfFuel st' => In fn (effectQueue st')
            end).
  { intros fuel.
    apply (drain_keeps_pending body fn self_write); [reflexivity | exact Hin]. }
  split.
  { intros fuel. unfold runEffects. specialize (K fuel).
    destruct (drain body fuel (set_runningEffects true st)); exact K. }
  split.
  { intros n s0 q Q. rewrite (drain_step body n fn q s0 Q).
    pose proof (createDeferredEffect_control body fn None (dequeued fn s0))
      as (_ & _ & _ & _ & _ & _ & C).
    cbn zeta in C. specialize (C fn). rewrite fn_eqb_refl in C.
    change (calls fn (dequeued fn s0)) with (calls fn s0) in C.
    destruct (createDeferredEffect body fn None (dequeued fn s0)) as [s|s|s];
      cbn [state_of] in *; try lia.
    pose proof (drain_calls_mono body fn n s). lia. }
  intros Hnt fuel. unfold runEffects. specialize (K fuel).
  pose proof (drain_never_throws body fuel (set_runningEffects true st) Hnt) as T.
  destruct (drain body fuel (set_runningEffects true st)) as [s|s|s] eqn:D.
  - destruct K.
  - exfalso. now apply (T s).
  - exists s. split; [reflexivity|]. split; [exact K|].
    apply (drain_out_of_fuel_calls body fuel _ _ D).
Qed.

End StillRunning.

(** The theorem of C5 on the incrementing effect. *)
Lemma C5_witness :
  In Scenario.f (effectQueue ScenarioLoop.pending) /\
  (forall fuel st',
     runEffects ScenarioLoop.bump fuel ScenarioLoop.pending <> Normal st') /\
  (forall fuel, exists st',
     runEffects ScenarioLoop.bump fuel ScenarioLoop.pending = OutOfFuel st' /\
     In Scenario.f (effectQueue st') /\
     length (called (trace st'))
       = length (called (trace ScenarioLoop.pending)) + fuel).
Proof.
  assert (Q : In Scenario.f (effectQueue ScenarioLoop.pending))
    by (vm_compute; left; reflexivity).
  destruct (C5_self_requeueing_effect_keeps_flush_running
              ScenarioLoop.bump Scenario.f bump_writes_own_dependency
              ScenarioLoop.pending Q) as (_ & _ & A & _ & B).
  split; [exact Q|]. split.
  - intros fuel st' E. specialize (A fuel). rewrite E in A. exact A.
  - apply B. intros g v. exact I.
Defined.

(** *** Two self-requeueing effects: the second starves *)

Lemma rerun_queue_fixed c st :
  (forall x, In x (computations st) -> In (c_fn x) (effectQueue st)) ->
  effectQueue (rerun c st) = effectQueue st /\
  map c_fn (computations (rerun c st)) = map c_fn (computations st).
Proof.
  intros H. split; [|destruct (same_control_rerun c st) as (_ & _ & _ & _ & _ & L & _);
                     exact L].
  unfold rerun. destruct (nth_error (computations st) c) as [x|] eqn:E;
    [|reflexivity].
  destruct (c_initial x); [reflexivity|]. cbn.
  apply (wrapper_subsequent_keeps_position (c_fn x)
           (set_owner (c_owner x)
              (set_computations
                 (update_computation c unsubscribe (computations st)) st))).
  cbn. apply H. eapply nth_error_In. exact E.
Qed.

Lemma _set_queue_fixed s v st :
  (forall x, In x (computations st) -> In (c_fn x) (effectQueue st)) ->
  effectQueue (_set s v st) = effectQueue st.
Proof.
  intros H. unfold _set. destruct (Z.eqb (read_cell s st) v); [reflexivity|].
  set (st1 := set_cells (write_cell s v (cells st)) st).
  assert (P : effectQueue (notify (observers s st1) st1) = effectQueue st1 /\
              map c_fn (computations (notify (observers s st1) st1))
              = map c_fn (computations st1)).
  { apply (notify_invariant
             (fun a => effectQueue a = effectQueue st1 /\
                       map c_fn (computations a) = map c_fn (computations st1))).
    - intros c a (Qa & La).
      destruct (rerun_queue_fixed c a) as (Q' & L').
      + intros x Hx. rewrite Qa.
        assert (Hm : In (c_fn x) (map c_fn (computations a)))
          by (apply in_map; exact Hx).
        rewrite La in Hm. apply in_map_iff in Hm.
        destruct Hm as (y & Ey & Hy). rewrite <- Ey. exact (H y Hy).
      + split; congruence.
    - split; reflexivity. }
  exact (proj1 P).
Qed.

Lemma In_fns_of_map (l : list Computation) (fns : list EffectFunction) :
  (forall h, In h (map c_fn l) -> In h fns) ->
  forall x, In x l -> In (c_fn x) fns.
Proof. intros H x Hx. apply H. now apply in_map. Qed.

(** An iteration that finds [g; f] with the registry listing [g] first
    replays [g] and leaves the same shape: the write of [g] moves [g] and
    then [f] to the end. *)
Lemma starves_step st :
  ScenarioStarve.starves st ->
  exists st2,
    createDeferredEffect ScenarioLoop.bump Scenario.g None
      (dequeued Scenario.g st) = Normal st2 /\
    ScenarioStarve.starves st2 /\
    calls Scenario.f st2 = calls Scenario.f st.
Proof.
  intros (R & Q & D & F).
  pose proof (createDeferredEffect_control ScenarioLoop.bump Scenario.g None
                (dequeued Scenario.g st)) as (R' & _ & _ & _ & L & _ & K).
  cbn zeta in R', L, K.
  change (runningEffects (dequeued Scenario.g st)) with (runningEffects st) in R'.
  change (computations (dequeued Scenario.g st)) with (computations st) in L.
  specialize (K Scenario.f).
  change (calls Scenario.f (dequeued Scenario.g st)) with (calls Scenario.f st) in K.
  revert R' L K. rewrite createDeferredEffect_eq.
  unfold ScenarioLoop.bump. rewrite exec_ReadSignal. cbn [exec state_of].
  set (c := length (computations (dequeued Scenario.g st))).
  set (st_a := about_to_call Scenario.g None (dequeued Scenario.g st)).
  set (v := fst (get c 0 st_a)).
  set (st_g := snd (get c 0 st_a)).
  intros R' L K.
  assert (Rg : runningEffects st_g = true).
  { destruct (same_control_get c 0 st_a) as (H & _). fold st_g in H.
    rewrite H. exact R. }
  assert (Qg : effectQueue st_g = [Scenario.f]).
  { unfold st_g. rewrite effectQueue_get. unfold st_a, about_to_call, dequeued.
    cbn. rewrite Q. reflexivity. }
  assert (Dg : effectDeps st_g = [(Scenario.g, [0]); (Scenario.f, [0])]).
  { unfold st_g, get, _get, st_a, about_to_call, dequeued. cbn.
    rewrite R. cbn. rewrite D. reflexivity. }
  assert (Lg : map c_fn (computations st_g)
               = map c_fn (computations st) ++ [Scenario.g]).
  { unfold st_g, get, _get, st_a, about_to_call, dequeued. cbn.
    destruct (runningEffects st); cbn; rewrite map_fn_subscribe, map_app;
      reflexivity. }
  assert (Fst : forall h, In h (map c_fn (computations st) ++ [Scenario.g]) ->
                  In h [Scenario.g; Scenario.f]).
  { intros h Hh. apply in_app_or in Hh. destruct Hh as [Hh|[<- |[]]].
    - apply in_map_iff in Hh. destruct Hh as (x & <- & Hx). now apply F.
    - now left. }
  assert (Qs : effectQueue (set 0 (v + 1)%Z st_g) = [Scenario.g; Scenario.f]).
  { unfold set. rewrite Rg. cbn [negb].
    assert (Qr : effectQueue (requeue_dependents 0 st_g)
                 = [Scenario.g; Scenario.f]).
    { unfold requeue_dependents. cbn. rewrite Dg, Qg. reflexivity. }
    rewrite _set_queue_fixed; [exact Qr|].
    rewrite Qr. apply In_fns_of_map.
    change (computations (requeue_dependents 0 st_g)) with (computations st_g).
    rewrite Lg. exact Fst. }
  destruct (same_log_set 0 (v + 1)%Z st_g) as (_ & _ & Ds).
  eexists. split; [reflexivity|]. split.
  - unfold ScenarioStarve.starves.
    destruct (same_control_onCleanup Scenario.g
                (log (Returned Scenario.g None) (set 0 (v + 1)%Z st_g)))
      as (A1 & _ & _ & A4 & A5 & _ & A7 & _).
    rewrite A4, A7. cbn [state_of] in R'. rewrite R'.
    split; [exact R|]. split; [exact Qs|].
    split; [cbn; rewrite Ds; exact Dg|].
    apply In_fns_of_map. cbn [state_of] in L. rewrite L. exact Fst.
  - cbn [state_of] in K. rewrite K. reflexivity.
Qed.

Lemma starves_drain fuel st :
  ScenarioStarve.starves st ->
  calls Scenario.f (state_of (drain ScenarioLoop.bump fuel st))
  = calls Scenario.f st.
Proof.
  revert st. induction fuel as [|fuel IH]; intros st H.
  - simpl. destruct (effectQueue st); reflexivity.
  - destruct (starves_step st H) as (st2 & E & H2 & K).
    destruct H as (_ & Q & _).
    rewrite (drain_step ScenarioLoop.bump fuel Scenario.g [Scenario.f] st Q), E.
    rewrite (IH st2 H2). exact K.
Qed.

Lemma calls_runEffects body g fuel st :
  calls g (state_of (runEffects body fuel st))
  = calls g (state_of (drain body fuel (set_runningEffects true st))).
Proof.
  unfold runEffects.
  destruct (drain body fuel (set_runningEffects true st)); reflexivity.
Qed.

Lemma two_bumps_reachable :
  reachable ScenarioLoop.bump ScenarioStarve.two_bumps.
Proof.
  change ScenarioStarve.two_bumps
    with (state_of (createDeferredEffect ScenarioLoop.bump Scenario.f None
            (state_of (createDeferredEffect ScenarioLoop.bump Scenario.g None
               (snd (createSignal 0%Z initial_state)))))).
  repeat constructor.
Qed.

(** C5 as worded fails: [g] and [f] both increment signal 0 and are
    pending, [g] first.  The flush replays [g], then [f], and from then on
    only [g]: each write of [g] moves [g] and then [f] to the end, so [f]
    is put back but never visited again. *)
Lemma C5_counterexample :
  ~ self_requeueing_effect_is_visited_again ScenarioLoop.bump Scenario.f
      ScenarioStarve.two_bumps.
Proof.
  intros H.
  destruct H as (fuel & Hf).
  - exact bump_writes_own_dependency.
  - vm_compute. right. now left.
  - assert (B : calls Scenario.f
                  (state_of (runEffects ScenarioLoop.bump fuel
                               ScenarioStarve.two_bumps)) <= 2).
    { rewrite calls_runEffects.
      destruct fuel as [|[|n]]; [vm_compute; lia | vm_compute; lia|].
      change (S (S n)) with (2 + n). rewrite drain_add.
      assert (D2 : drain ScenarioLoop.bump 2
                     (set_runningEffects true ScenarioStarve.two_bumps)
                   = OutOfFuel ScenarioStarve.starving)
        by (vm_compute; reflexivity).
      rewrite D2, starves_drain; [vm_compute; lia|].
      unfold ScenarioStarve.starves. repeat split; try reflexivity.
      intros x Hx. vm_compute in Hx.
      destruct Hx as [<- |[<- |[<- |[<- |[]]]]]; vm_compute; auto. }
    assert (C0 : calls Scenario.f ScenarioStarve.two_bumps = 1)
      by (vm_compute; reflexivity).
    rewrite C0 in Hf. lia.
Qed.

(** * Dependencies that a run did not read *)

Section Unread.

Variable body : EffectFunction -> option Z -> Code.

(** C7 (as amended): after a run of [fn] that did not read signal [x],
    [x] is not in the dependency set of [fn], because the set is emptied
    before the run and only reads fill it; the scan of a later write to
    [x] does not put [fn] into the queue.  The write can still queue [fn]
    through the base primitive, and only when a base effect that an
    earlier registration or replay of the same function created still
    observes [x]; when there is none, the write queues [fn] only if it was
    queued already. *)
Theorem C7_unread_signal_is_not_a_dependency fn value x st st1 :
  NoDup (map fst (effectDeps st)) ->
  createDeferredEffect body fn value st = Normal st1 ->
  ~ read_in x (events_since st st1) ->
  ~ In x (deps_of fn st1) /\
  is_dependent x (effectDeps st1) fn = false /\
  (In fn (effectQueue (requeue_dependents x st1)) <-> In fn (effectQueue st1)) /\
  (forall v, In fn (effectQueue (set x v st1)) ->
             In fn (effectQueue st1) \/ observed_by x fn st) /\
  (~ observed_by x fn st ->
   ~ observed_by x fn st1 /\
   forall v, In fn (effectQueue (set x v st1)) <-> In fn (effectQueue st1)).
Proof.
  intros Hnd E Hread.
  destruct (createDeferredEffect_tracked body fn value st)
    as (evs & T & D & _ & _ & N & _ & P).
  rewrite E in *. cbn [state_of] in *.
  assert (Hevs : ~ read_in x evs).
  { intros H. apply Hread. unfold events_since, read_in. rewrite T.
    rewrite skipn_app, Nat.sub_diag, skipn_all. cbn. now right. }
  assert (Hdeps : ~ In x (deps_of fn st1)).
  { intros H. apply D in H. now destruct H. }
  assert (Hdep : is_dependent x (effectDeps st1) fn = false).
  { destruct (is_dependent x (effectDeps st1) fn) eqn:I; [|reflexivity].
    exfalso. destruct (is_dependent_unique x _ fn (N Hnd) I) as (d & G & Hd).
    apply Hdeps. unfold deps_of. now rewrite G. }
  assert (Hold : observed_by x fn st1 -> observed_by x fn st).
  { intros (x' & Hin & Hfn & Hs). apply In_nth_error in Hin.
    destruct Hin as [i Ei].
    destruct (P i x' Ei) as [(x0 & E0 & F0 & _ & I0)|(_ & _ & _ & S0)].
    - exists x0. split; [eapply nth_error_In; eassumption|].
      split; [congruence | now apply I0].
    - exfalso. apply Hevs. now apply S0. }
  assert (Hset : forall v, In fn (effectQueue (set x v st1)) ->
                   In fn (effectQueue st1) \/ observed_by x fn st).
  { intros v H. apply queue_set in H. destruct H as [H|[(_ & H)|H]].
    - now left.
    - congruence.
    - right. now apply Hold. }
  split; [exact Hdeps|]. split; [exact Hdep|]. split; [|split; [exact Hset|]].
  - unfold requeue_dependents. cbn. rewrite In_scan, Hdep. intuition discriminate.
  - intros Hobs. split; [intros H; now apply Hobs, Hold|].
    intros v. split.
    + intros H. destruct (Hset v H) as [H'|H']; [exact H' | contradiction].
    + destruct (same_control_set x v st1) as (_ & _ & _ & _ & _ & _ & Q).
      apply Q.
Qed.

End Unread.

(** The theorem of C7 on the replay that no longer reads [X]. *)
Lemma C7_witness :
  ~ read_in ScenarioBranch.sig_X
      (events_since ScenarioBranch.second_flush_dequeued
         ScenarioBranch.second_flush_replayed) /\
  ~ In ScenarioBranch.sig_X (deps_of Scenario.f ScenarioBranch.second_flush_replayed) /\
  (In Scenario.f
      (effectQueue (set ScenarioBranch.sig_X 9%Z ScenarioBranch.second_flush_replayed))
   <-> In Scenario.f (effectQueue ScenarioBranch.second_flush_replayed)).
Proof.
  assert (Hnd : NoDup (map fst (effectDeps ScenarioBranch.second_flush_dequeued))).
  { vm_compute. repeat constructor. intros []. }
  assert (Hread : ~ read_in ScenarioBranch.sig_X
                    (events_since ScenarioBranch.second_flush_dequeued
                       ScenarioBranch.second_flush_replayed)).
  { vm_compute. intros [H|[H|[H|[]]]]; discriminate. }
  assert (Hobs : ~ observed_by ScenarioBranch.sig_X Scenario.f
                    ScenarioBranch.second_flush_dequeued).
  { intros (x & Hin & _ & Hs). vm_compute in Hin.
    destruct Hin as [<- |[<- |[]]]; exact Hs. }
  assert (E : createDeferredEffect ScenarioBranch.branching Scenario.f None
                ScenarioBranch.second_flush_dequeued
              = Normal ScenarioBranch.second_flush_replayed)
    by (vm_compute; reflexivity).
  destruct (C7_unread_signal_is_not_a_dependency ScenarioBranch.branching
              Scenario.f None ScenarioBranch.sig_X
              ScenarioBranch.second_flush_dequeued
              ScenarioBranch.second_flush_replayed
              Hnd E Hread) as (A & _ & _ & _ & B).
  split; [exact Hread|]. split; [exact A|].
  destruct (B Hobs) as (_ & B'). exact (B' 9%Z).
Defined.

Lemma once_registered_reachable :
  reachable ScenarioTwice.reads_by_value ScenarioStale.once_registered.
Proof.
  change ScenarioStale.once_registered
    with (state_of (createDeferredEffect ScenarioTwice.reads_by_value
            Scenario.f (Some 0%Z)
            (snd (createSignal 0%Z
               (snd (createSignal 0%Z
                  (snd (createSignal 0%Z initial_state)))))))).
  repeat constructor.
Qed.

(** C7 as worded fails: [f] was registered with 0 and read [X]; it is
    registered again with 1 and its run reads [Y] only.  [X] is not in the
    dependency set of [f] and [f] is not pending, yet a write to [X]
    queues [f]: the base effect of the first registration still observes
    [X]. *)
Lemma C7_counterexample :
  ~ unread_signal_never_requeues ScenarioTwice.reads_by_value Scenario.f
      (Some 1%Z) ScenarioTwice.sig_X 5%Z ScenarioStale.once_registered.
Proof.
  intros H.
  destruct (H ScenarioStale.twice_registered) as (_ & Hq).
  - vm_compute. reflexivity.
  - vm_compute. intros [E|[E|[E|[]]]]; discriminate.
  - assert (Hin : In Scenario.f
                    (effectQueue (set ScenarioTwice.sig_X 5%Z
                                    ScenarioStale.twice_registered)))
      by (vm_compute; left; reflexivity).
    apply Hq in Hin. vm_compute in Hin. exact Hin.
Qed.

(** * Cleanup across scopes *)

Lemma flush_pending_reachable :
  reachable ScenarioAcross.feeds ScenarioAcross.flush_pending.
Proof.
  change ScenarioAcross.flush_pending
    with (set ScenarioAcross.sig_B 2%Z
            (state_of (microtask ScenarioAcross.feeds 5
               (set ScenarioAcross.sig_B 1%Z
                  (state_of (runWithOwner 7
                     (createDeferredEffect ScenarioAcross.feeds Scenario.f None)
                     (state_of (createDeferredEffect ScenarioAcross.feeds
                        Scenario.g None
                        (snd (createSignal 0%Z
                           (snd (createSignal 0%Z initial_state)))))))))))).
  repeat constructor.
Qed.


(** * Writing back the value read *)







Lemma echo_pending_reachable :
  reachable (ScenarioEcho.write_back 0) ScenarioEcho.pending.
Proof.
  change ScenarioEcho.pending
    with (set 0 5%Z
            (state_of (createDeferredEffect (ScenarioEcho.write_back 0)
                         Scenario.f None
                         (snd (createSignal 4%Z initial_state))))).
  repeat constructor.
Qed.

